(** * broker/sub.go: subscription identifiers, subscriber sets and
      subscription counters of the emitter broker.

    The Go code is embedded shallowly.  Slices are headers into a store of
    backing arrays, [*subCounter] and the counting map are objects of that
    store, and every operation is a function from the store to either a
    result with the new store or a run-time panic.  The calls on a registry
    are serialised by its mutex; they are modelled one after the other. *)

From Stdlib Require Import ssreflect ZArith Lia List.
From Stdlib.Strings Require Import String Byte.
From stdpp Require Import base option list gmap strings numbers fin_maps.

Set Warnings "-rewrite-rw".

Open Scope general_if_scope.
Open Scope Z_scope.

(** ** Go integers *)

(** [uint32] values are integers in [0, 2^32); conversion to [uint32] wraps. *)
Definition wrap32 (z : Z) : Z := z mod 2 ^ 32.

Definition is_uint32 (z : Z) : Prop := 0 <= z < 2 ^ 32.

(** Go's [int] has the width of the target: 32 or 64 bits.  Signed overflow
    wraps around (it does not panic). *)
Inductive IntSize := Int32 | Int64.

Definition intBits (w : IntSize) : Z :=
  match w with Int32 => 32 | Int64 => 64 end.

Definition MaxInt (w : IntSize) : Z := 2 ^ (intBits w - 1) - 1.
Definition MinInt (w : IntSize) : Z := - 2 ^ (intBits w - 1).

Definition wrapInt (w : IntSize) (z : Z) : Z :=
  (z + 2 ^ (intBits w - 1)) mod 2 ^ intBits w - 2 ^ (intBits w - 1).

(** ** The store *)

Abbreviation loc := positive (only parsing).

(** A slice value: pointer to the backing array, first element, length and
    capacity.  A nil slice has length and capacity 0. *)
Record slice := Slice { base : loc; off : nat; len : nat; cap : nat }.

Definition nil : slice := Slice 1 0 0 0.

(** [type Ssid []uint32] *)
Abbreviation Ssid := slice (only parsing).

(** [type subCounter struct { Ssid Ssid; Channel string; Counter int }] *)
Module subCounter.
Record t := mk { Ssid : slice; Channel : string; Counter : Z }.
End subCounter.

(** The fields of [cluster.Subscription] that [All] fills: [Ssid] and
    [Channel []byte]. *)
Module cluster.
Record Subscription := mkSubscription { Ssid : slice; Channel : slice }.
End cluster.

(** The field of [security.Channel] that [NewSsid] reads: [Query []uint32]. *)
Module security.
Record Channel := mkChannel { Query : slice }.
End security.

Record Heap := mkHeap {
  words : gmap loc (list Z);                     (* arrays behind []uint32 *)
  octets : gmap loc (list byte);                 (* arrays behind []byte *)
  meters : gmap loc subCounter.t;                (* subCounter objects *)
  tables : gmap loc (gmap Z loc);                (* SubscriptionCounters objects: the map m *)
  clones : gmap loc (list cluster.Subscription)  (* arrays behind []cluster.Subscription *)
}.

Definition set_words (f : gmap loc (list Z) → gmap loc (list Z)) (σ : Heap) : Heap :=
  mkHeap (f (words σ)) (octets σ) (meters σ) (tables σ) (clones σ).
Definition set_octets (f : gmap loc (list byte) → gmap loc (list byte)) (σ : Heap) : Heap :=
  mkHeap (words σ) (f (octets σ)) (meters σ) (tables σ) (clones σ).
Definition set_meters (f : gmap loc subCounter.t → gmap loc subCounter.t) (σ : Heap) : Heap :=
  mkHeap (words σ) (octets σ) (f (meters σ)) (tables σ) (clones σ).
Definition set_tables (f : gmap loc (gmap Z loc) → gmap loc (gmap Z loc)) (σ : Heap) : Heap :=
  mkHeap (words σ) (octets σ) (meters σ) (f (tables σ)) (clones σ).
Definition set_clones
    (f : gmap loc (list cluster.Subscription) → gmap loc (list cluster.Subscription))
    (σ : Heap) : Heap :=
  mkHeap (words σ) (octets σ) (meters σ) (tables σ) (f (clones σ)).

(** ** Outcomes and the store monad *)

Inductive Fault :=
  | IndexOutOfRange    (* run-time panic: index out of range *)
  | SliceOutOfRange    (* run-time panic: slice bounds out of range *)
  | NilDereference     (* run-time panic: nil pointer dereference *)
  | InvalidAddress.    (* a location outside the store; no Go value denotes one *)

Inductive Result (A : Type) :=
  | Ok (a : A)
  | Panic (e : Fault).
Arguments Ok {A} a.
Arguments Panic {A} e.

Definition M (A : Type) : Type := Heap → Result (A * Heap).

#[global] Instance M_ret : MRet M := λ A a σ, Ok (a, σ).
#[global] Instance M_bind : MBind M := λ A B f c σ,
  match c σ with
  | Ok (a, σ') => f a σ'
  | Panic e => Panic e
  end.

Definition panic {A} (e : Fault) : M A := λ _, Panic e.
Definition modify_heap (f : Heap → Heap) : M unit := λ σ, Ok (tt, f σ).

(** A read of the store that faults when the location is not allocated. *)
Definition lift_lookup {A} (f : Heap → option A) : M A := λ σ,
  match f σ with
  | Some a => Ok (a, σ)
  | None => Panic InvalidAddress
  end.

(** ** Slices *)

(** The three kinds of backing array of the store, with the zero value of
    their elements. *)
Class Arrays (A : Type) := {
  arrays : Heap → gmap loc (list A);
  set_arrays : (gmap loc (list A) → gmap loc (list A)) → Heap → Heap;
  zero : A
}.

#[global] Instance words_arrays : Arrays Z :=
  {| arrays := words; set_arrays := set_words; zero := 0 |}.
#[global] Instance octets_arrays : Arrays byte :=
  {| arrays := octets; set_arrays := set_octets; zero := x00 |}.
#[global] Instance clones_arrays : Arrays cluster.Subscription :=
  {| arrays := clones; set_arrays := set_clones;
     zero := cluster.mkSubscription nil nil |}.

(** The elements a slice denotes in a store.  A slice of length 0, the nil
    slice among them, denotes no element and needs no array. *)
Definition view {A} (arrs : gmap loc (list A)) (s : slice) : option (list A) :=
  if decide (len s = O) then Some []
  else
    match arrs !! base s with
    | Some a =>
        if decide (off s + len s ≤ length a)%nat
        then Some (take (len s) (drop (off s) a))
        else None
    | None => None
    end.

(** [s[i]] *)
Definition index `{Arrays A} (s : slice) (i : nat) : M A :=
  if decide (i < len s)%nat
  then lift_lookup (λ σ, a ← arrays σ !! base s; a !! (off s + i)%nat)
  else panic IndexOutOfRange.

(** [s[i] = x].  No function of this file assigns to an element of a
    slice; it is the write open to whoever holds one. *)
Definition assign `{Arrays A} (s : slice) (i : nat) (x : A) : M unit :=
  if decide (i < len s)%nat
  then
    a ← lift_lookup (λ σ, arrays σ !! base s);
    if decide (off s + i < length a)%nat
    then modify_heap (set_arrays <[base s := <[(off s + i)%nat := x]> a]>)
    else panic InvalidAddress
  else panic IndexOutOfRange.

(** [s[lo:]] *)
Definition slice_from (s : slice) (lo : nat) : M slice :=
  if decide (lo ≤ len s)%nat
  then mret (Slice (base s) (off s + lo) (len s - lo) (cap s - lo))
  else panic SliceOutOfRange.

(** [for _, x := range s { b = body x b }], from index [i], [n] more elements. *)
Fixpoint range_from `{Arrays A} {B} (s : slice) (i n : nat) (body : A → B → M B) (b : B) : M B :=
  match n with
  | O => mret b
  | S n' => x ← index s i; b' ← body x b; range_from s (S i) n' body b'
  end.

Definition range `{Arrays A} {B} (s : slice) (body : A → B → M B) (b : B) : M B :=
  range_from s 0 (len s) body b.

(** A fresh array holding [xs], and a slice of its first [n] elements. *)
Definition alloc `{Arrays A} (xs : list A) (n : nat) : M slice := λ σ,
  let l := fresh (dom (arrays σ)) in
  Ok (Slice l 0 n (length xs), set_arrays <[l := xs]> σ).

(** [make([]A, n, c)]: a fresh zeroed array of [c] elements. *)
Definition make `{Arrays A} (n c : nat) : M slice :=
  alloc (replicate c zero) n.

(** All elements of a slice, as [append(_, s...)] reads them. *)
Definition read `{Arrays A} (s : slice) : M (list A) :=
  lift_lookup (λ σ, view (arrays σ) s).

(** [append(s, xs...)]: [s] itself when there is nothing to append; in
    place when the capacity suffices, otherwise into a fresh array (whose
    capacity, left to the run time, is taken to be the new length). *)
Definition append `{Arrays A} (s : slice) (xs : list A) : M slice :=
  match xs with
  | [] => mret s
  | _ :: _ =>
      if decide (len s + length xs ≤ cap s)%nat
      then
        a ← lift_lookup (λ σ, arrays σ !! base s);
        let k := (off s + len s)%nat in
        if decide (k + length xs ≤ length a)%nat
        then
          modify_heap
            (set_arrays <[base s := take k a ++ xs ++ drop (k + length xs) a]>);;
          mret (Slice (base s) (off s) (len s + length xs) (cap s))
        else panic InvalidAddress
      else
        old ← read s;
        alloc (old ++ xs) (len s + length xs)
  end.

(** [[]byte(str)]: a fresh copy of the bytes of a string. *)
Definition bytes_of_string (str : string) : M slice :=
  let bs := list_byte_of_string str in
  alloc bs (length bs).

(** [for _, x := range xs { b = body x b }] over the entries of a map, in
    the order the run time hands them out. *)
Fixpoint for_each {A B} (xs : list A) (body : A → B → M B) (b : B) : M B :=
  match xs with
  | [] => mret b
  | x :: xs' => b' ← body x b; for_each xs' body b'
  end.

(** ** Ssid *)

(** [func NewSsid(contract uint32, c *security.Channel) Ssid]; a nil [c] is
    [None]. *)
Definition NewSsid (contract : Z) (c : option security.Channel) : M Ssid :=
  match c with
  | None => panic NilDereference
  | Some ch =>
      ssid ← make (A := Z) 0 (len (security.Query ch) + 1);
      ssid ← append ssid [wrap32 contract];
      q ← read (A := Z) (security.Query ch);
      ssid ← append ssid q;
      mret ssid
  end.

(** [func (s Ssid) Contract() uint32] *)
Definition Contract (s : Ssid) : M Z :=
  x ← index s 0;
  mret (wrap32 x).

(** [func (s Ssid) GetHashCode() uint32]; the XOR of two uint32 values is
    a uint32, so [h ^= i] needs no wrap-around. *)
Definition GetHashCode (s : Ssid) : M Z :=
  h ← index s 0;
  t ← slice_from s 1;
  range t (λ i h, mret (Z.lxor h i)) h.

(** ** Subscribers *)

(** A [Subscriber] is an interface value; the set compares its members with
    [==], which for the pointer-shaped subscribers of the broker is identity
    of the object behind the interface.  A subscriber is modelled by that
    identity. *)
Abbreviation Subscriber := loc (only parsing).

(** [type Subscribers []Subscriber]; the methods take [*Subscribers] and the
    set behind the pointer is passed in and out. *)
Abbreviation Subscribers := (list Subscriber) (only parsing).

(** [func (s *Subscribers) Contains(value Subscriber) bool] *)
Fixpoint Contains (s : Subscribers) (value : Subscriber) : bool :=
  match s with
  | [] => false
  | v :: s' => if decide (v = value) then true else Contains s' value
  end.

(** [func (s *Subscribers) AddUnique(value Subscriber)] *)
Definition AddUnique (s : Subscribers) (value : Subscriber) : Subscribers :=
  if Bool.eqb (Contains s value) false then s ++ [value] else s.

(** ** SubscriptionCounters *)

(** A [*SubscriptionCounters] is the location of its map in [tables]; the
    embedded mutex serialises the calls and has no state of its own here. *)

Definition load_table (s : loc) : M (gmap Z loc) :=
  lift_lookup (λ σ, tables σ !! s).
Definition store_table (s : loc) (m : gmap Z loc) : M unit :=
  modify_heap (set_tables <[s := m]>).
Definition load_meter (p : loc) : M subCounter.t :=
  lift_lookup (λ σ, meters σ !! p).
Definition store_meter (p : loc) (c : subCounter.t) : M unit :=
  modify_heap (set_meters <[p := c]>).
Definition new_meter (c : subCounter.t) : M loc := λ σ,
  let p := fresh (dom (meters σ)) in
  Ok (p, set_meters <[p := c]> σ).

(** [func NewSubscriptionCounters() *SubscriptionCounters] *)
Definition NewSubscriptionCounters : M loc := λ σ,
  let s := fresh (dom (tables σ)) in
  Ok (s, set_tables <[s := ∅]> σ).

(** [func (s *SubscriptionCounters) getOrCreate(ssid Ssid, channel string) *subCounter] *)
Definition getOrCreate (s : loc) (ssid : Ssid) (channel : string) : M loc :=
  key ← GetHashCode ssid;
  m ← load_table s;
  match m !! key with
  | Some p => mret p
  | None =>
      meter ← new_meter (subCounter.mk ssid channel 0);
      m ← load_table s;
      store_table s (<[key := meter]> m);;
      mret meter
  end.

Section Counting.

(** The width of [int] on the target the broker is built for. *)
Context (w : IntSize).

(** [func (s *SubscriptionCounters) Increment(ssid Ssid, channel string)] *)
Definition Increment (s : loc) (ssid : Ssid) (channel : string) : M unit :=
  m ← getOrCreate s ssid channel;
  c ← load_meter m;
  store_meter m
    (subCounter.mk (subCounter.Ssid c) (subCounter.Channel c)
       (wrapInt w (subCounter.Counter c + 1))).

(** [func (s *SubscriptionCounters) Decrement(ssid Ssid)] *)
Definition Decrement (s : loc) (ssid : Ssid) : M unit :=
  key ← GetHashCode ssid;
  t ← load_table s;
  match t !! key with
  | Some m =>
      c ← load_meter m;
      let n := wrapInt w (subCounter.Counter c - 1) in
      store_meter m (subCounter.mk (subCounter.Ssid c) (subCounter.Channel c) n);;
      if decide (n ≤ 0)
      then
        key' ← GetHashCode ssid;
        t' ← load_table s;
        store_table s (delete key' t')
      else mret tt
  | None => mret tt
  end.

End Counting.

(** [func (s *SubscriptionCounters) All() []cluster.Subscription].  Go leaves
    the order of a map's [range] open; the entries are taken in the order of
    [map_to_list], and nothing below depends on which order that is. *)
Definition All (s : loc) : M slice :=
  t ← load_table s;
  clone ← make (A := cluster.Subscription) 0 (size t);
  for_each (map_to_list t)
    (λ '(_, m) clone,
       c ← load_meter m;
       ch ← bytes_of_string (subCounter.Channel c);
       append clone [cluster.mkSubscription (subCounter.Ssid c) ch])
    clone.

(** [s.Method(args)] for the three exported methods, and a sequence of such
    calls on one registry. *)
Inductive Call :=
  | CallIncrement (ssid : Ssid) (channel : string)
  | CallDecrement (ssid : Ssid)
  | CallAll.

Definition call (w : IntSize) (s : loc) (c : Call) : M unit :=
  match c with
  | CallIncrement ssid channel => Increment w s ssid channel
  | CallDecrement ssid => Decrement w s ssid
  | CallAll => All s;; mret tt
  end.

Fixpoint calls (w : IntSize) (s : loc) (cs : list Call) : M unit :=
  match cs with
  | [] => mret tt
  | c :: cs' => call w s c;; calls w s cs'
  end.

(** ** What a store holds, read out as values *)

(** The XOR of all elements of a sequence. *)
Definition xor_all (l : list Z) : Z := foldr Z.lxor 0 l.

(** The counter object filed under a key of a registry. *)
Definition bucket (σ : Heap) (s : loc) (key : Z) : option subCounter.t :=
  t ← tables σ !! s; p ← t !! key; meters σ !! p.

(** The contents of one element of a snapshot: the elements of its Ssid and
    the bytes of its channel. *)
Definition contents (σ : Heap) (e : cluster.Subscription) : option (list Z * list byte) :=
  ws ← view (words σ) (cluster.Ssid e);
  bs ← view (octets σ) (cluster.Channel e);
  Some (ws, bs).

(** The contents of a snapshot, element by element. *)
Definition snapshot (σ : Heap) (a : slice) : option (list (list Z * list byte)) :=
  es ← view (clones σ) a; mapM (contents σ) es.

(** What a counter object stands for in a snapshot. *)
Definition entry (σ : Heap) (c : subCounter.t) : option (list Z * list byte) :=
  ws ← view (words σ) (subCounter.Ssid c);
  Some (ws, list_byte_of_string (subCounter.Channel c)).

(** The entries of a counting map, in the order of [map_to_list]. *)
Definition entries (σ : Heap) (t : gmap Z loc) : option (list (list Z * list byte)) :=
  mapM (λ kp, c ← meters σ !! kp.2; entry σ c) (map_to_list t).

(** A registry whose pointers all lead to counter objects with an Ssid that
    is a slice of the store, each object filed under one key only.  Every
    registry a Go program can hold is of this shape. *)
Definition registry_ok (σ : Heap) (s : loc) : Prop :=
  ∃ t, tables σ !! s = Some t ∧
    (∀ k p, t !! k = Some p →
       ∃ c, meters σ !! p = Some c ∧ is_Some (view (words σ) (subCounter.Ssid c))) ∧
    (∀ k k' p, t !! k = Some p → t !! k' = Some p → k = k').

(** Every counter a registry retains is at least 1. *)
Definition counters_positive (σ : Heap) (s : loc) : Prop :=
  ∀ t k p, tables σ !! s = Some t → t !! k = Some p →
    ∃ c, meters σ !! p = Some c ∧ 1 ≤ subCounter.Counter c.

(** The number of [Increment] calls in a sequence. *)
Fixpoint increments (cs : list Call) : nat :=
  match cs with
  | [] => O
  | CallIncrement _ _ :: cs' => S (increments cs')
  | _ :: cs' => increments cs'
  end.

(** A counter object with its count replaced. *)
Definition with_count (c : subCounter.t) (n : Z) : subCounter.t :=
  subCounter.mk (subCounter.Ssid c) (subCounter.Channel c) n.

(** The store [σ] after a counter object [c] at [p] has been filed under
    [key] in the map [t] of the registry [s]. *)
Definition filed (σ : Heap) (s : loc) (t : gmap Z loc) (key : Z) (p : loc)
    (c : subCounter.t) : Heap :=
  set_tables <[s := <[key := p]> t]> (set_meters <[p := c]> σ).

(** [σ'] keeps every array of [σ] as it is: the arrays behind []uint32 are
    the same, and those behind []byte and []cluster.Subscription are still
    there, possibly joined by new ones. *)
Definition extends (σ σ' : Heap) : Prop :=
  words σ' = words σ ∧ octets σ ⊆ octets σ' ∧ clones σ ⊆ clones σ'.

(** How an element of a snapshot comes from an entry of the map: its Ssid
    is the slice header the counter object holds, so that both share one
    backing array, and its channel is an array that the store [σ] the
    snapshot was taken in did not have. *)
Definition copied_from (σ : Heap) (e : cluster.Subscription) (kp : Z * loc) : Prop :=
  ∃ c, meters σ !! kp.2 = Some c ∧
       cluster.Ssid e = subCounter.Ssid c ∧
       base (cluster.Channel e) ∉ dom (octets σ).

(** The loop of [All] after the entries [done]: the clone is the slice [b]
    of the fresh array at [lc], filled with one element per entry. *)
Definition All_inv (σ : Heap) (t : gmap Z loc) (lc : loc)
    (done : list (Z * loc)) (b : slice) (σj : Heap) : Prop :=
  b = Slice lc 0 (length done) (size t) ∧
  words σj = words σ ∧ meters σj = meters σ ∧ tables σj = tables σ ∧
  octets σ ⊆ octets σj ∧
  ∃ es X,
    clones σj = <[lc := es ++ replicate (size t - length done) zero]> (clones σ) ∧
    Forall2 (λ e v, contents σj e = Some v) es X ∧
    Forall2 (λ kp v, (meters σ !! kp.2 ≫= entry σ) = Some v) done X ∧
    Forall2 (copied_from σ) es done.

(** The invariant of a registry: every pointer of its map leads to a
    counter object whose count is between 1 and [hi], and no two keys share
    an object. *)
Definition registry_inv (hi : Z) (σ : Heap) (s : loc) : Prop :=
  ∃ t, tables σ !! s = Some t ∧
    (∀ k p, t !! k = Some p →
       ∃ c, meters σ !! p = Some c ∧ 1 ≤ subCounter.Counter c ≤ hi) ∧
    (∀ k k' p, t !! k = Some p → t !! k' = Some p → k = k').

(** No [Increment] of the sequence [cs], run on the registry [s] from the
    store [σ], finds the bucket of its SSID at the count [MaxInt]. *)
Definition never_at_MaxInt (w : IntSize) (s : loc) (σ : Heap) (cs : list Call) : Prop :=
  ∀ cs1 ssid channel cs2 σ' key c,
    cs = cs1 ++ CallIncrement ssid channel :: cs2 →
    calls w s cs1 σ = Ok (tt, σ') →
    GetHashCode ssid σ' = Ok (key, σ') →
    bucket σ' s key = Some c →
    subCounter.Counter c < MaxInt w.

(** Every bucket of a registry is filed under the combined hash of the SSID
    it records. *)
Definition keyed_by_hash (σ : Heap) (s : loc) : Prop :=
  ∀ key c, bucket σ s key = Some c →
    ∃ x l, view (words σ) (subCounter.Ssid c) = Some (x :: l) ∧
           foldl Z.lxor x l = key.

(** The count a registry holds for a key: that of the bucket, 0 without one. *)
Definition count (σ : Heap) (s : loc) (key : Z) : Z :=
  match bucket σ s key with
  | Some c => subCounter.Counter c
  | None => 0
  end.

(** The combined hash of the elements a slice denotes, when it has any. *)
Definition key_of (σ : Heap) (ssid : slice) : option Z :=
  match view (words σ) ssid with
  | Some (x :: l) => Some (foldl Z.lxor x l)
  | _ => None
  end.

(** The counts a sequence of calls adds up to, key by key, in unbounded
    arithmetic: an Increment adds 1 under the hash of its SSID, a Decrement
    takes 1 away unless the count is 0, All changes nothing.  The hashes are
    read in the store [σ] the sequence starts from, the counts start at [f]. *)
Definition tally_call (σ : Heap) (f : Z → Z) (c : Call) : Z → Z :=
  match c with
  | CallIncrement ssid _ =>
      λ k, if decide (key_of σ ssid = Some k) then f k + 1 else f k
  | CallDecrement ssid =>
      λ k, if decide (key_of σ ssid = Some k) then Z.max 0 (f k - 1) else f k
  | CallAll => f
  end.

Definition tally (σ : Heap) (f : Z → Z) (cs : list Call) : Z → Z :=
  foldl (tally_call σ) f cs.

(** A call whose SSID, if it has one, is a non-empty slice of the store. *)
Definition call_valid (σ : Heap) (c : Call) : Prop :=
  match c with
  | CallIncrement ssid _ | CallDecrement ssid => is_Some (key_of σ ssid)
  | CallAll => True
  end.

(** Two registries whose maps share no counter object, as any two
    registries made by [NewSubscriptionCounters] are. *)
Definition apart (σ : Heap) (s s0 : loc) : Prop :=
  s ≠ s0 ∧
  ∀ t t0 k k0 p, tables σ !! s = Some t → tables σ !! s0 = Some t0 →
    t !! k = Some p → t0 !! k0 = Some p → False.

(** ** A store to run the code on *)

(** Three arrays of uint32, [1 42], [5 7 9] and [5 9 7], and a registry at
    location 1 whose map is empty. *)
Definition demo : Heap :=
  mkHeap {[ 1%positive := [1; 42]; 2%positive := [5; 7; 9]; 3%positive := [5; 9; 7] ]}
         ∅ ∅ {[ 1%positive := ∅ ]} ∅.

Definition ssid_1_42 : slice := Slice 1 0 2 2.
Definition ssid_5_7_9 : slice := Slice 2 0 3 3.
Definition ssid_5_9_7 : slice := Slice 3 0 3 3.

(** The same store after [Increment(ssid_1_42, "a/b")] on its registry. *)
Definition demo_counted : Heap :=
  filed demo 1 ∅ 43 1 (subCounter.mk ssid_1_42 "a/b" 1).

(** The store [demo_counted] after [All] on its registry: the snapshot is
    the slice [demo_snapshot_slice], of a new array that holds one element,
    with the slice header of the recorded SSID and a new array for the bytes
    of the channel. *)
Definition demo_snapshot_slice : slice := Slice 1 0 1 1.

Definition demo_snapshot_element : cluster.Subscription :=
  cluster.mkSubscription ssid_1_42 (Slice 1 0 3 3).

Definition demo_snapshot : Heap :=
  set_clones <[1%positive := [demo_snapshot_element]]>
    (set_octets <[1%positive := list_byte_of_string "a/b"]> demo_counted).

(** The same store after a second registry has been made. *)
Definition demo_two : Heap := set_tables <[2%positive := ∅]> demo_counted.

(** The scenario of the specification, run on a new registry: Increment
    of the SSID [1 42] with the channel a/b, a snapshot; a second Increment
    and a Decrement, a snapshot; one more Decrement, a snapshot.  It returns
    the contents of the three snapshots, read when taken, and those of the
    first one, read again at the end. *)
Definition observe {A} (f : Heap → A) : M A := λ σ, Ok (f σ, σ).

Definition value_of {A} (r : Result (A * Heap)) : option A :=
  match r with
  | Ok (a, _) => Some a
  | Panic _ => None
  end.

Definition scenario (w : IntSize) :=
  s ← NewSubscriptionCounters;
  Increment w s ssid_1_42 "a/b";;
  a1 ← All s;
  x1 ← observe (λ σ, snapshot σ a1);
  Increment w s ssid_1_42 "a/b";;
  Decrement w s ssid_1_42;;
  a2 ← All s;
  x2 ← observe (λ σ, snapshot σ a2);
  Decrement w s ssid_1_42;;
  a3 ← All s;
  x3 ← observe (λ σ, snapshot σ a3);
  x1' ← observe (λ σ, snapshot σ a1);
  mret (x1, x2, x3, x1').

(** * Proofs *)

(** ** The store monad *)

Lemma bind_Ok {A B} (c : M A) (f : A → M B) σ a σ' :
  c σ = Ok (a, σ') → (c ≫= f) σ = f a σ'.
Proof. rewrite /mbind /M_bind. by intros ->. Qed.

Lemma bind_ret {A B} (a : A) (f : A → M B) σ : (mret a ≫= f) σ = f a σ.
Proof. done. Qed.

Lemma bind_Panic {A B} (c : M A) (f : A → M B) σ e :
  c σ = Panic e → (c ≫= f) σ = Panic e.
Proof. rewrite /mbind /M_bind. by intros ->. Qed.

Lemma bind_inv {A B} (c : M A) (f : A → M B) σ b σ'' :
  (c ≫= f) σ = Ok (b, σ'') → ∃ a σ', c σ = Ok (a, σ') ∧ f a σ' = Ok (b, σ'').
Proof.
  rewrite /mbind /M_bind. destruct (c σ) as [[a σ']|e]; [eauto | done].
Qed.

Lemma lift_lookup_Some {A} (f : Heap → option A) σ a :
  f σ = Some a → lift_lookup f σ = Ok (a, σ).
Proof. rewrite /lift_lookup. by intros ->. Qed.

Lemma lift_lookup_inv {A} (f : Heap → option A) σ a σ' :
  lift_lookup f σ = Ok (a, σ') → f σ = Some a ∧ σ' = σ.
Proof. rewrite /lift_lookup. destruct (f σ); naive_solver. Qed.

(** Run the first command of a sequence, given a tactic that evaluates it. *)
Ltac mstep tac := etrans; [apply bind_Ok; solve [tac] |].

(** The first command reads the store. *)
Ltac mload :=
  mstep ltac:(apply lift_lookup_Some; simpl;
              first [eassumption | by rewrite lookup_insert_eq]).

(** ** Views of slices *)

Lemma view_length {A} (arrs : gmap loc (list A)) s l :
  view arrs s = Some l → length l = len s.
Proof.
  rewrite /view. case_decide as Hz; [by intros [= <-]|].
  destruct (arrs !! base s) as [a|]; [|done].
  case_decide; [|done]. intros [= <-].
  rewrite length_take length_drop. lia.
Qed.

Lemma view_lookup {A} (arrs : gmap loc (list A)) s l i :
  view arrs s = Some l → (i < len s)%nat →
  (a ← arrs !! base s; a !! (off s + i)%nat) = l !! i.
Proof.
  rewrite /view. case_decide as Hz; [lia|].
  destruct (arrs !! base s) as [a|]; [|done].
  case_decide; [|done]. intros [= <-] Hi. simpl.
  by rewrite lookup_take_lt // lookup_drop.
Qed.

Lemma view_tail {A} (arrs : gmap loc (list A)) s x t :
  view arrs s = Some (x :: t) →
  view arrs (Slice (base s) (off s + 1) (len s - 1) (cap s - 1)) = Some t.
Proof.
  intros Hv. pose proof (view_length _ _ _ Hv) as Hl. simpl in Hl.
  revert Hv. rewrite /view /=. rewrite (decide_False (P := len s = O)); [lia|].
  destruct (arrs !! base s) as [a|]; [|done].
  case_decide; [|done]. intros [= Hv].
  case_decide as Hz.
  { destruct t; [done|]. simpl in Hl. lia. }
  rewrite decide_True; [lia|]. f_equal.
  rewrite -drop_drop.
  destruct (drop (off s) a) as [|y d] eqn:Hd.
  { rewrite take_nil in Hv. done. }
  destruct (len s) as [|n]; [done|].
  simpl in Hv. injection Hv as _ Hv. simpl.
  by rewrite Nat.sub_0_r.
Qed.

Lemma index_view `{Arrays A} σ s (l : list A) i x :
  view (arrays σ) s = Some l → l !! i = Some x → index s i σ = Ok (x, σ).
Proof.
  intros Hv Hx. rewrite /index.
  assert (i < len s)%nat.
  { rewrite -(view_length _ _ _ Hv). by eapply lookup_lt_Some. }
  rewrite decide_True //. apply lift_lookup_Some.
  by rewrite (view_lookup _ _ _ _ Hv).
Qed.

Lemma index_empty `{Arrays A} σ s i :
  len s = O → index (A := A) s i σ = Panic IndexOutOfRange.
Proof. intros Hl. rewrite /index decide_False //. lia. Qed.

Lemma range_from_pure `{Arrays A} {B} σ s (l : list A) (f : A → B → B) i n b :
  view (arrays σ) s = Some l → (i + n = len s)%nat →
  range_from s i n (λ x b, mret (f x b)) b σ
  = Ok (foldl (λ b x, f x b) b (drop i l), σ).
Proof.
  intros Hv. revert i b. induction n as [|n IH]; intros i b Hn.
  - rewrite drop_ge; [rewrite (view_length _ _ _ Hv); lia | done].
  - assert (is_Some (l !! i)) as [x Hx].
    { apply lookup_lt_is_Some. rewrite (view_length _ _ _ Hv). lia. }
    simpl. rewrite (bind_Ok _ _ _ _ _ (index_view _ _ _ _ _ Hv Hx)).
    rewrite bind_ret.
    rewrite IH; [lia|]. by rewrite (drop_S _ _ _ Hx).
Qed.

(** ** GetHashCode and Contract *)

Lemma GetHashCode_view σ s x t :
  view (words σ) s = Some (x :: t) →
  GetHashCode s σ = Ok (foldl Z.lxor x t, σ).
Proof.
  intros Hv. rewrite /GetHashCode.
  rewrite (bind_Ok _ _ _ _ _ (index_view (H := words_arrays) σ s _ 0 x Hv eq_refl)).
  pose proof (view_length _ _ _ Hv) as Hl. simpl in Hl.
  rewrite /slice_from decide_True; [lia|].
  rewrite bind_ret /range.
  apply view_tail in Hv.
  rewrite (range_from_pure (H := words_arrays) σ _ t (λ i h, Z.lxor h i)) //=.
Qed.

Lemma GetHashCode_empty σ s :
  len s = O → GetHashCode s σ = Panic IndexOutOfRange.
Proof.
  intros Hl. rewrite /GetHashCode. apply bind_Panic. by apply index_empty.
Qed.

Lemma Contract_view σ s x t :
  view (words σ) s = Some (x :: t) → Contract s σ = Ok (wrap32 x, σ).
Proof.
  intros Hv. rewrite /Contract.
  by rewrite (bind_Ok _ _ _ _ _ (index_view (H := words_arrays) σ s _ 0 x Hv eq_refl)).
Qed.

Lemma Contract_empty σ s :
  len s = O → Contract s σ = Panic IndexOutOfRange.
Proof.
  intros Hl. rewrite /Contract. apply bind_Panic. by apply index_empty.
Qed.

(** ** XOR folds *)

Lemma foldl_lxor a t : foldl Z.lxor a t = Z.lxor a (xor_all t).
Proof.
  revert a. induction t as [|y t IH]; intros a; simpl.
  - by rewrite Z.lxor_0_r.
  - by rewrite IH Z.lxor_assoc.
Qed.

Lemma xor_all_Permutation l l' : l ≡ₚ l' → xor_all l = xor_all l'.
Proof.
  induction 1 as [|x l l' _ IH|x y l|l l' l'' _ IH1 _ IH2]; simpl.
  - done.
  - by rewrite IH.
  - rewrite -!Z.lxor_assoc. f_equal. apply Z.lxor_comm.
  - by rewrite IH1.
Qed.

Lemma lxor_uint32 a b : is_uint32 a → is_uint32 b → is_uint32 (Z.lxor a b).
Proof.
  rewrite /is_uint32. intros [Ha Ha'] [Hb Hb']. split.
  - by apply Z.lxor_nonneg.
  - assert (0 ≤ Z.lxor a b) as Hx by by apply Z.lxor_nonneg.
    destruct (decide (Z.lxor a b = 0)) as [->|Hne]; [done|].
    apply Z.log2_lt_pow2; [lia|].
    eapply Z.le_lt_trans; [by apply Z.log2_lxor|].
    destruct (decide (a = 0)) as [->|Ha0], (decide (b = 0)) as [->|Hb0].
    + done.
    + rewrite Z.max_r; [apply Z.log2_nonneg|]. apply Z.log2_lt_pow2; lia.
    + rewrite Z.max_l; [apply Z.log2_nonneg|]. apply Z.log2_lt_pow2; lia.
    + apply Z.max_lub_lt; apply Z.log2_lt_pow2; lia.
Qed.

Lemma xor_all_uint32 l : Forall is_uint32 l → is_uint32 (xor_all l).
Proof.
  induction 1 as [|x l Hx _ IH]; simpl.
  - rewrite /is_uint32. lia.
  - by apply lxor_uint32.
Qed.

Lemma wrap32_uint32 z : is_uint32 z → wrap32 z = z.
Proof. rewrite /is_uint32 /wrap32. intros. by apply Z.mod_small. Qed.

(** ** NewSsid *)

Lemma view_base_allocated {A} (arrs : gmap loc (list A)) s l :
  view arrs s = Some l → len s ≠ O → base s ∈ dom arrs.
Proof.
  rewrite /view. intros Hv Hz. rewrite decide_False // in Hv.
  destruct (arrs !! base s) eqn:E; [|done].
  apply elem_of_dom. eauto.
Qed.

Lemma view_insert_ne {A} (arrs : gmap loc (list A)) s l a :
  base s ≠ l → view (<[l := a]> arrs) s = view arrs s.
Proof. intros Hne. by rewrite /view lookup_insert_ne. Qed.

Lemma view_insert_fresh {A} (arrs : gmap loc (list A)) s a :
  is_Some (view arrs s) → view (<[fresh (dom arrs) := a]> arrs) s = view arrs s.
Proof.
  intros [l Hv]. destruct (decide (len s = O)) as [Hz|Hz].
  { by rewrite /view !decide_True. }
  apply view_insert_ne. intros Heq.
  apply view_base_allocated in Hv; [|done]. rewrite Heq in Hv.
  by apply is_fresh in Hv.
Qed.

Lemma view_whole {A} (arrs : gmap loc (list A)) l a :
  arrs !! l = Some a → view arrs (Slice l 0 (length a) (length a)) = Some a.
Proof.
  intros Ha. rewrite /view /=. case_decide as Hz.
  { by rewrite (nil_length_inv _ Hz). }
  rewrite Ha decide_True; [lia|].
  by rewrite drop_0 firstn_all.
Qed.

Lemma append_in_place `{Arrays A} σ s (xs a : list A) :
  xs ≠ [] →
  (len s + length xs ≤ cap s)%nat →
  arrays σ !! base s = Some a →
  (off s + len s + length xs ≤ length a)%nat →
  append s xs σ
  = Ok (Slice (base s) (off s) (len s + length xs) (cap s),
        set_arrays
          <[base s := take (off s + len s) a ++ xs ++ drop (off s + len s + length xs) a]> σ).
Proof.
  intros Hxs Hcap Ha Hlen. rewrite /append. destruct xs as [|x xs]; [done|].
  rewrite decide_True //.
  rewrite (bind_Ok _ _ σ a σ); [by apply lift_lookup_Some|].
  by rewrite decide_True.
Qed.

Lemma set_words_insert_insert l a b σ :
  set_words <[l := a]> (set_words <[l := b]> σ) = set_words <[l := a]> σ.
Proof. rewrite /set_words /=. by rewrite insert_insert_eq. Qed.

Lemma NewSsid_view σ contract ch q :
  view (words σ) (security.Query ch) = Some q →
  NewSsid contract (Some ch) σ
  = Ok (Slice (fresh (dom (words σ))) 0 (S (length q)) (S (length q)),
        set_words <[fresh (dom (words σ)) := wrap32 contract :: q]> σ).
Proof.
  intros Hq. pose proof (view_length _ _ _ Hq) as Hlen.
  rewrite /NewSsid /make -Hlen.
  set (l := fresh (dom (words σ))).
  set (σ1 := set_words <[l := replicate (length q + 1) 0]> σ).
  rewrite (bind_Ok _ _ σ (Slice l 0 0 (length q + 1)) σ1).
  { rewrite /alloc /= length_replicate. done. }
  set (σ2 := set_words <[l := wrap32 contract :: replicate (length q) 0]> σ).
  rewrite (bind_Ok _ _ σ1 (Slice l 0 1 (length q + 1)) σ2).
  { rewrite (append_in_place (H := words_arrays) σ1 _ _ (replicate (length q + 1) 0)) /=.
    - done.
    - lia.
    - by rewrite lookup_insert_eq.
    - rewrite length_replicate. lia.
    - rewrite /σ1 set_words_insert_insert /σ2.
      replace (length q + 1)%nat with (S (length q)) by lia. simpl.
      by rewrite drop_0. }
  rewrite (bind_Ok _ _ σ2 q σ2).
  { apply lift_lookup_Some. simpl. rewrite view_insert_fresh //. }
  destruct (decide (q = [])) as [->|Hne].
  { rewrite bind_ret /mret /M_ret /σ2 /=. done. }
  rewrite (bind_Ok _ _ σ2 (Slice l 0 (S (length q)) (length q + 1))
             (set_words <[l := wrap32 contract :: q]> σ)).
  { rewrite (append_in_place (H := words_arrays) σ2 _ _
               (wrap32 contract :: replicate (length q) 0)) /=.
    - done.
    - lia.
    - by rewrite lookup_insert_eq.
    - rewrite length_replicate. lia.
    - rewrite /σ2 set_words_insert_insert.
      rewrite drop_ge; [rewrite length_replicate; lia|].
      by rewrite app_nil_r. }
  rewrite /mret /M_ret. do 3 f_equal. lia.
Qed.

(** ** Go's int *)

Lemma wrapInt_small w z : MinInt w ≤ z ≤ MaxInt w → wrapInt w z = z.
Proof.
  rewrite /wrapInt /MinInt /MaxInt. destruct w; simpl; intros Hz.
  all: rewrite Z.mod_small; lia.
Qed.

Lemma wrapInt_wrapInt_add w a b : wrapInt w (wrapInt w a + b) = wrapInt w (a + b).
Proof.
  rewrite /wrapInt. f_equal.
  set (H := 2 ^ (intBits w - 1)). set (K := 2 ^ intBits w).
  replace ((a + H) `mod` K - H + b + H) with ((a + H) `mod` K + b) by lia.
  rewrite Zplus_mod_idemp_l. f_equal. lia.
Qed.

Lemma MaxInt_pos w : 1 ≤ MaxInt w.
Proof. by destruct w. Qed.

Lemma MinInt_neg w : MinInt w ≤ 0.
Proof. by destruct w. Qed.

(** ** One call on a registry *)

Section OneCall.
Context (w : IntSize) (σ : Heap) (s : loc) (t : gmap Z loc).
Context (ssid : slice) (x : Z) (l : list Z).
Hypothesis Hview : view (words σ) ssid = Some (x :: l).
Hypothesis Htable : tables σ !! s = Some t.

Local Abbreviation key := (foldl Z.lxor x l).

Lemma getOrCreate_present channel p :
  t !! key = Some p → getOrCreate s ssid channel σ = Ok (p, σ).
Proof.
  intros Hp. rewrite /getOrCreate.
  rewrite (bind_Ok _ _ _ _ _ (GetHashCode_view _ _ _ _ Hview)).
  rewrite (bind_Ok _ _ σ t σ); [by apply lift_lookup_Some|].
  by rewrite Hp.
Qed.

Lemma getOrCreate_absent channel :
  t !! key = None →
  getOrCreate s ssid channel σ
  = Ok (fresh (dom (meters σ)),
        set_tables <[s := <[key := fresh (dom (meters σ))]> t]>
          (set_meters <[fresh (dom (meters σ)) := subCounter.mk ssid channel 0]> σ)).
Proof.
  intros Hp. rewrite /getOrCreate.
  rewrite (bind_Ok _ _ _ _ _ (GetHashCode_view _ _ _ _ Hview)).
  rewrite (bind_Ok _ _ σ t σ); [by apply lift_lookup_Some|].
  rewrite Hp.
  set (p := fresh (dom (meters σ))).
  set (σ1 := set_meters <[p := subCounter.mk ssid channel 0]> σ).
  rewrite (bind_Ok _ _ σ p σ1) //.
  rewrite (bind_Ok _ _ σ1 t σ1); [by apply lift_lookup_Some|].
  done.
Qed.

Lemma Increment_present channel p c :
  t !! key = Some p → meters σ !! p = Some c →
  Increment w s ssid channel σ
  = Ok (tt, set_meters <[p := with_count c (wrapInt w (subCounter.Counter c + 1))]> σ).
Proof.
  intros Hp Hc. rewrite /Increment.
  rewrite (bind_Ok _ _ _ _ _ (getOrCreate_present channel p Hp)).
  rewrite (bind_Ok _ _ σ c σ); [by apply lift_lookup_Some|].
  done.
Qed.

Lemma Increment_absent channel :
  t !! key = None →
  Increment w s ssid channel σ
  = Ok (tt,
        set_tables <[s := <[key := fresh (dom (meters σ))]> t]>
          (set_meters <[fresh (dom (meters σ)) := subCounter.mk ssid channel 1]> σ)).
Proof.
  intros Hp. rewrite /Increment.
  mstep ltac:(by apply getOrCreate_absent).
  mload.
  rewrite /store_meter /modify_heap /set_meters /set_tables /=.
  rewrite insert_insert_eq wrapInt_small //.
  pose proof (MaxInt_pos w). pose proof (MinInt_neg w). lia.
Qed.

Lemma Decrement_absent :
  t !! key = None → Decrement w s ssid σ = Ok (tt, σ).
Proof.
  intros Hp. rewrite /Decrement.
  rewrite (bind_Ok _ _ _ _ _ (GetHashCode_view _ _ _ _ Hview)).
  rewrite (bind_Ok _ _ σ t σ); [by apply lift_lookup_Some|].
  by rewrite Hp.
Qed.

Lemma Decrement_retained p c :
  t !! key = Some p → meters σ !! p = Some c →
  0 < wrapInt w (subCounter.Counter c - 1) →
  Decrement w s ssid σ
  = Ok (tt, set_meters <[p := with_count c (wrapInt w (subCounter.Counter c - 1))]> σ).
Proof.
  intros Hp Hc Hn. rewrite /Decrement.
  rewrite (bind_Ok _ _ _ _ _ (GetHashCode_view _ _ _ _ Hview)).
  rewrite (bind_Ok _ _ σ t σ); [by apply lift_lookup_Some|].
  rewrite Hp.
  rewrite (bind_Ok _ _ σ c σ); [by apply lift_lookup_Some|].
  simpl. rewrite decide_False; [lia|]. done.
Qed.

Lemma Decrement_removed p c :
  t !! key = Some p → meters σ !! p = Some c →
  wrapInt w (subCounter.Counter c - 1) ≤ 0 →
  Decrement w s ssid σ
  = Ok (tt,
        set_tables <[s := delete key t]>
          (set_meters <[p := with_count c (wrapInt w (subCounter.Counter c - 1))]> σ)).
Proof.
  intros Hp Hc Hn. rewrite /Decrement.
  mstep ltac:(by apply GetHashCode_view).
  mload. rewrite Hp.
  mload. simpl. rewrite decide_True //.
  mstep ltac:(done).
  mstep ltac:(by apply GetHashCode_view).
  mload. done.
Qed.

End OneCall.

(** ** Sequences of calls *)

Lemma calls_app w s cs1 cs2 σ σ1 :
  calls w s cs1 σ = Ok (tt, σ1) →
  calls w s (cs1 ++ cs2) σ = calls w s cs2 σ1.
Proof.
  revert σ. induction cs1 as [|c cs1 IH]; intros σ; simpl.
  - by intros [= ->].
  - intros (u & σ' & Hc & Hcs)%bind_inv.
    rewrite (bind_Ok _ _ _ _ _ Hc). by apply IH.
Qed.

(** ** One bucket, counted up and down *)

Section Bucket.
Context (w : IntSize) (σ : Heap) (s : loc) (t : gmap Z loc).
Context (ssid : slice) (x : Z) (l : list Z).
Hypothesis Hview : view (words σ) ssid = Some (x :: l).
Hypothesis Htable : tables σ !! s = Some t.

Local Abbreviation key := (foldl Z.lxor x l).

Lemma Increment_files channel :
  t !! key = None →
  Increment w s ssid channel σ
  = Ok (tt, filed σ s t key (fresh (dom (meters σ))) (subCounter.mk ssid channel 1)).
Proof. intros. by apply Increment_absent. Qed.

Lemma Increment_filed channel p c :
  Increment w s ssid channel (filed σ s t key p c)
  = Ok (tt, filed σ s t key p (with_count c (wrapInt w (subCounter.Counter c + 1)))).
Proof.
  rewrite (Increment_present w (filed σ s t key p c) s (<[key := p]> t) ssid x l
             Hview _ channel p c); simpl.
  - by rewrite lookup_insert_eq.
  - by rewrite lookup_insert_eq.
  - by rewrite lookup_insert_eq.
  - by rewrite /filed /set_meters /set_tables /= insert_insert_eq.
Qed.

Lemma Decrement_filed_retained p c :
  0 < wrapInt w (subCounter.Counter c - 1) →
  Decrement w s ssid (filed σ s t key p c)
  = Ok (tt, filed σ s t key p (with_count c (wrapInt w (subCounter.Counter c - 1)))).
Proof.
  intros Hn.
  rewrite (Decrement_retained w (filed σ s t key p c) s (<[key := p]> t) ssid x l
             Hview _ p c); simpl.
  - by rewrite lookup_insert_eq.
  - by rewrite lookup_insert_eq.
  - by rewrite lookup_insert_eq.
  - done.
  - by rewrite /filed /set_meters /set_tables /= insert_insert_eq.
Qed.

Lemma Decrement_filed_removed p c :
  t !! key = None →
  wrapInt w (subCounter.Counter c - 1) ≤ 0 →
  Decrement w s ssid (filed σ s t key p c)
  = Ok (tt, set_meters <[p := with_count c (wrapInt w (subCounter.Counter c - 1))]> σ).
Proof.
  intros Hkey Hn.
  rewrite (Decrement_removed w (filed σ s t key p c) s (<[key := p]> t) ssid x l
             Hview _ p c); simpl.
  - by rewrite lookup_insert_eq.
  - by rewrite lookup_insert_eq.
  - by rewrite lookup_insert_eq.
  - done.
  - rewrite /filed /set_meters /set_tables /= !insert_insert_eq.
    rewrite delete_insert_eq delete_id // (insert_id (tables σ)) //.
Qed.

End Bucket.

Lemma with_count_id c : with_count c (subCounter.Counter c) = c.
Proof. by destruct c. Qed.

Lemma wrapInt_idemp w a : wrapInt w (wrapInt w a) = wrapInt w a.
Proof.
  rewrite -{1}(Z.add_0_r (wrapInt w a)) wrapInt_wrapInt_add. f_equal. lia.
Qed.

Section Repeated.
Context (w : IntSize) (σ : Heap) (s : loc) (t : gmap Z loc).
Context (ssid : slice) (x : Z) (l : list Z).
Hypothesis Hview : view (words σ) ssid = Some (x :: l).
Hypothesis Htable : tables σ !! s = Some t.

Local Abbreviation key := (foldl Z.lxor x l).

Lemma Increments_filed channel p c n :
  wrapInt w (subCounter.Counter c) = subCounter.Counter c →
  calls w s (replicate n (CallIncrement ssid channel)) (filed σ s t key p c)
  = Ok (tt, filed σ s t key p
              (with_count c (wrapInt w (subCounter.Counter c + Z.of_nat n)))).
Proof.
  revert c. induction n as [|n IH]; intros c Hc.
  - by rewrite Z.add_0_r Hc with_count_id.
  - rewrite Nat2Z.inj_succ. cbn [replicate calls call].
    mstep ltac:(by apply (Increment_filed w σ s t ssid x l)).
    rewrite IH; cbn [with_count subCounter.Counter]; [by rewrite wrapInt_idemp|].
    rewrite /with_count /= wrapInt_wrapInt_add. do 5 f_equal. lia.
Qed.

Lemma Decrements_filed p c n :
  Z.of_nat n < subCounter.Counter c ≤ MaxInt w →
  calls w s (replicate n (CallDecrement ssid)) (filed σ s t key p c)
  = Ok (tt, filed σ s t key p (with_count c (subCounter.Counter c - Z.of_nat n))).
Proof.
  revert c. induction n as [|n IH]; intros c Hc.
  - by rewrite Z.sub_0_r with_count_id.
  - pose proof (MinInt_neg w).
    assert (wrapInt w (subCounter.Counter c - 1) = subCounter.Counter c - 1) as Hw.
    { apply wrapInt_small. lia. }
    rewrite Nat2Z.inj_succ. cbn [replicate calls call].
    mstep ltac:(apply (Decrement_filed_retained w σ s t ssid x l); [done..|lia]).
    rewrite IH; cbn [with_count subCounter.Counter]; [lia|].
    rewrite /with_count /= Hw. do 4 f_equal. lia.
Qed.

Lemma Decrements_absent n :
  t !! key = None →
  calls w s (replicate n (CallDecrement ssid)) σ = Ok (tt, σ).
Proof.
  intros Hkey. induction n as [|n IH]; [done|].
  simpl. mstep ltac:(by apply (Decrement_absent w σ s t ssid x l)). done.
Qed.

End Repeated.

(** ** What a successful call presupposes *)

Lemma range_from_reads `{Arrays A} {B} σ s (f : A → B → B) i n b r σ' a :
  range_from s i n (λ x b, mret (f x b)) b σ = Ok (r, σ') →
  arrays σ !! base s = Some a →
  ∀ j, (i ≤ j < i + n)%nat → is_Some (a !! (off s + j)%nat).
Proof.
  intros Hr Ha. revert i b Hr. induction n as [|n IH]; intros i b Hr j Hj; [lia|].
  simpl in Hr. apply bind_inv in Hr as (y & σ1 & Hy & Hr).
  rewrite /index in Hy. case_decide; [|done].
  apply lift_lookup_inv in Hy as [Hy ->]. rewrite Ha /= in Hy.
  rewrite bind_ret in Hr.
  destruct (decide (j = i)) as [->|Hne]; [eauto|].
  apply (IH (S i) (f y b) Hr). lia.
Qed.

Lemma GetHashCode_inv σ s h σ' :
  GetHashCode s σ = Ok (h, σ') →
  ∃ x l, view (words σ) s = Some (x :: l) ∧ h = foldl Z.lxor x l ∧ σ' = σ.
Proof.
  intros Hh. pose proof Hh as Hh'.
  rewrite /GetHashCode in Hh'.
  apply bind_inv in Hh' as (x & σ1 & Hx & Hr).
  rewrite /index in Hx. case_decide as Hlen; [|done].
  apply lift_lookup_inv in Hx as [Hx ->]. simpl in Hx.
  destruct (words σ !! base s) as [a|] eqn:Ha; [|done]. simpl in Hx.
  rewrite /slice_from decide_True in Hr; [lia|]. rewrite bind_ret /range in Hr.
  assert (off s + len s ≤ length a)%nat as Hin.
  { destruct (decide (len s = 1%nat)) as [Hone|Hmore].
    - apply lookup_lt_Some in Hx. lia.
    - pose proof (range_from_reads (H := words_arrays) _ _ _ _ _ _ _ _ a Hr Ha
                    (len s - 2)%nat) as [y Hy]; [simpl; lia|].
      apply lookup_lt_Some in Hy. simpl in Hy. lia. }
  assert (view (words σ) s = Some (take (len s) (drop (off s) a))) as Hv.
  { rewrite /view decide_False; [lia|]. by rewrite Ha decide_True. }
  destruct (take (len s) (drop (off s) a)) as [|x' l] eqn:Hl.
  { apply (f_equal length) in Hl. rewrite length_take length_drop /= in Hl. lia. }
  exists x', l. split; [done|].
  rewrite (GetHashCode_view _ _ _ _ Hv) in Hh. by simplify_eq.
Qed.

Lemma load_table_inv s σ t σ' :
  load_table s σ = Ok (t, σ') → tables σ !! s = Some t ∧ σ' = σ.
Proof. apply (lift_lookup_inv (λ σ, tables σ !! s)). Qed.

Lemma load_meter_inv p σ c σ' :
  load_meter p σ = Ok (c, σ') → meters σ !! p = Some c ∧ σ' = σ.
Proof. apply (lift_lookup_inv (λ σ, meters σ !! p)). Qed.

Lemma Increment_inv w s ssid channel σ u σ' :
  Increment w s ssid channel σ = Ok (u, σ') →
  ∃ x l t, view (words σ) ssid = Some (x :: l) ∧ tables σ !! s = Some t ∧
    match t !! foldl Z.lxor x l with
    | Some p =>
        ∃ c, meters σ !! p = Some c ∧
          σ' = set_meters <[p := with_count c (wrapInt w (subCounter.Counter c + 1))]> σ
    | None =>
        σ' = filed σ s t (foldl Z.lxor x l) (fresh (dom (meters σ)))
               (subCounter.mk ssid channel 1)
    end.
Proof.
  intros Hi. pose proof Hi as Hi'. rewrite /Increment in Hi'.
  apply bind_inv in Hi' as (m & σ1 & Hg & Hi').
  rewrite /getOrCreate in Hg.
  apply bind_inv in Hg as (key & σa & Hkey & Hg).
  apply GetHashCode_inv in Hkey as (x & l & Hv & -> & Hσ). subst σa.
  apply bind_inv in Hg as (t & σb & Ht & Hg).
  apply load_table_inv in Ht as [Ht Hσ]. subst σb.
  exists x, l, t. split_and!; [done..|].
  destruct (t !! foldl Z.lxor x l) as [p|] eqn:Hp.
  - injection Hg as Hm Hσ. subst m σ1.
    apply bind_inv in Hi' as (c & σc & Hc & _).
    apply load_meter_inv in Hc as [Hc Hσ]. subst σc.
    exists c. split; [done|].
    rewrite (Increment_present w σ s t ssid x l Hv Ht channel p c Hp Hc) in Hi.
    by simplify_eq.
  - rewrite (Increment_files w σ s t ssid x l Hv Ht channel Hp) in Hi.
    by simplify_eq.
Qed.

Lemma Decrement_inv w s ssid σ u σ' :
  Decrement w s ssid σ = Ok (u, σ') →
  ∃ x l t, view (words σ) ssid = Some (x :: l) ∧ tables σ !! s = Some t ∧
    match t !! foldl Z.lxor x l with
    | Some p =>
        ∃ c, meters σ !! p = Some c ∧
          σ' = (if decide (wrapInt w (subCounter.Counter c - 1) ≤ 0)
                then set_tables <[s := delete (foldl Z.lxor x l) t]>
                else id)
                 (set_meters
                    <[p := with_count c (wrapInt w (subCounter.Counter c - 1))]> σ)
    | None => σ' = σ
    end.
Proof.
  intros Hd. pose proof Hd as Hd'. rewrite /Decrement in Hd'.
  apply bind_inv in Hd' as (key & σa & Hkey & Hd').
  apply GetHashCode_inv in Hkey as (x & l & Hv & -> & Hσ). subst σa.
  apply bind_inv in Hd' as (t & σb & Ht & Hd').
  apply load_table_inv in Ht as [Ht Hσ]. subst σb.
  exists x, l, t. split_and!; [done..|].
  destruct (t !! foldl Z.lxor x l) as [p|] eqn:Hp.
  - apply bind_inv in Hd' as (c & σc & Hc & _).
    apply load_meter_inv in Hc as [Hc Hσ]. subst σc.
    exists c. split; [done|]. case_decide as Hn.
    + rewrite (Decrement_removed w σ s t ssid x l Hv Ht p c Hp Hc Hn) in Hd.
      by simplify_eq.
    + rewrite (Decrement_retained w σ s t ssid x l Hv Ht p c Hp Hc) in Hd; [lia|].
      by simplify_eq.
  - rewrite (Decrement_absent w σ s t ssid x l Hv Ht Hp) in Hd. by simplify_eq.
Qed.

(** ** Loops over the entries of a map *)

Lemma for_each_ok {A B} (I : list A → B → Heap → Prop) (body : A → B → M B) xs b σ :
  I [] b σ →
  (∀ done x rest b σ, xs = done ++ x :: rest → I done b σ →
     ∃ b' σ', body x b σ = Ok (b', σ') ∧ I (done ++ [x]) b' σ') →
  ∃ b' σ', for_each xs body b σ = Ok (b', σ') ∧ I xs b' σ'.
Proof.
  intros H0 Hstep.
  cut (∀ rest done b σ, xs = done ++ rest → I done b σ →
         ∃ b' σ', for_each rest body b σ = Ok (b', σ') ∧ I xs b' σ').
  { intros Hcut. by apply (Hcut xs []). }
  induction rest as [|x rest IH]; intros done b1 σ1 Hxs HI; simpl.
  - exists b1, σ1. rewrite app_nil_r in Hxs. by subst.
  - destruct (Hstep done x rest b1 σ1 Hxs HI) as (b2 & σ2 & Hb & HI2).
    destruct (IH (done ++ [x]) b2 σ2) as (b3 & σ3 & Hf & HI3); [by rewrite -app_assoc|done|].
    exists b3, σ3. by rewrite (bind_Ok _ _ _ _ _ Hb).
Qed.

Lemma for_each_inv {A B} (I : B → Heap → Prop) (body : A → B → M B) xs b σ b' σ' :
  for_each xs body b σ = Ok (b', σ') →
  I b σ →
  (∀ x b σ b' σ', I b σ → body x b σ = Ok (b', σ') → I b' σ') →
  I b' σ'.
Proof.
  intros Hf H0 Hstep. revert b σ Hf H0.
  induction xs as [|x xs IH]; intros b σ Hf H0; simpl in Hf.
  - injection Hf as <- <-. done.
  - apply bind_inv in Hf as (b1 & σ1 & Hb & Hf). eauto.
Qed.

(** ** All *)

Lemma view_weaken {A} (arrs arrs' : gmap loc (list A)) s l :
  arrs ⊆ arrs' → view arrs s = Some l → view arrs' s = Some l.
Proof.
  intros Hsub. rewrite /view. case_decide; [done|].
  destruct (arrs !! base s) as [a|] eqn:Ha; [|done].
  by rewrite (lookup_weaken _ _ _ _ Ha Hsub).
Qed.

Lemma contents_weaken σ σ' e v :
  words σ' = words σ → octets σ ⊆ octets σ' →
  contents σ e = Some v → contents σ' e = Some v.
Proof.
  intros Hw Ho. rewrite /contents Hw.
  destruct (view (words σ) (cluster.Ssid e)) as [ws|]; [|done]. simpl.
  destruct (view (octets σ) (cluster.Channel e)) as [bs|] eqn:Hb; [|done].
  by rewrite (view_weaken _ _ _ _ Ho Hb).
Qed.

Lemma contents_extends σ σ' e v :
  extends σ σ' → contents σ e = Some v → contents σ' e = Some v.
Proof. intros (Hw & Ho & _). by apply contents_weaken. Qed.

Lemma snapshot_extends σ σ' a X :
  extends σ σ' → snapshot σ a = Some X → snapshot σ' a = Some X.
Proof.
  intros Hext. pose proof Hext as (_ & _ & Hc). rewrite /snapshot.
  destruct (view (clones σ) a) as [es|] eqn:Hes; [|done].
  rewrite (view_weaken _ _ _ _ Hc Hes) /=.
  rewrite !mapM_Some. intros HX. eapply Forall2_impl; [exact HX|].
  intros e v. by apply contents_extends.
Qed.

Lemma fill_slot {A} (es : list A) (e z : A) n :
  take (length es) (es ++ replicate (S n) z) ++ [e]
    ++ drop (length es + 1) (es ++ replicate (S n) z)
  = (es ++ [e]) ++ replicate n z.
Proof.
  induction es as [|y es IH]; simpl; [done|]. by rewrite IH.
Qed.

Lemma All_step σ t lc done k p rest b σj :
  lc ∉ dom (clones σ) →
  (∀ k p, t !! k = Some p →
     ∃ c, meters σ !! p = Some c ∧ is_Some (view (words σ) (subCounter.Ssid c))) →
  map_to_list t = done ++ (k, p) :: rest →
  All_inv σ t lc done b σj →
  ∃ b' σ',
    (c ← load_meter p;
     ch ← bytes_of_string (subCounter.Channel c);
     append b [cluster.mkSubscription (subCounter.Ssid c) ch]) σj = Ok (b', σ') ∧
    All_inv σ t lc (done ++ [(k, p)]) b' σ'.
Proof.
  intros Hlc Hwf Hxs (-> & Hw & Hm & Ht & Ho & es & X & Hcl & Hes & Hdone & Hcp).
  destruct (Hwf k p) as (c & Hc & ws & Hws).
  { apply elem_of_map_to_list. rewrite Hxs. set_solver. }
  assert (length (map_to_list t) = size t) as Hsize by apply length_map_to_list.
  rewrite Hxs length_app /= in Hsize.
  assert (length es = length done) as Hlen.
  { rewrite (Forall2_length _ _ _ Hes). symmetry. by eapply Forall2_length. }
  set (bs := list_byte_of_string (subCounter.Channel c)).
  set (lb := fresh (dom (octets σj))).
  set (ch := Slice lb 0 (length bs) (length bs)).
  set (e := cluster.mkSubscription (subCounter.Ssid c) ch).
  set (σ1 := set_octets <[lb := bs]> σj).
  set (a := es ++ replicate (size t - length done) zero).
  set (a' := (es ++ [e]) ++ replicate (size t - length (done ++ [(k, p)])) zero).
  exists (Slice lc 0 (length done + 1) (size t)), (set_clones <[lc := a']> σ1).
  split.
  - mstep ltac:(apply lift_lookup_Some; by rewrite Hm).
    mstep ltac:(done).
    rewrite (append_in_place (H := clones_arrays) σ1 _ _ a) /=.
    + done.
    + lia.
    + by rewrite Hcl lookup_insert_eq.
    + rewrite /a length_app length_replicate. lia.
    + do 3 f_equal. rewrite /a /a' length_app /= -Hlen.
      replace (size t - length es)%nat with (S (size t - (length es + 1))) by lia.
      f_equal. apply fill_slot.
  - split_and!; simpl.
    + by rewrite length_app.
    + done.
    + done.
    + done.
    + etrans; [exact Ho|]. apply insert_subseteq, not_elem_of_dom, is_fresh.
    + exists (es ++ [e]), (X ++ [(ws, bs)]). split_and!.
      * by rewrite Hcl insert_insert_eq.
      * apply Forall2_app.
        -- eapply Forall2_impl; [exact Hes|]. intros e' v Hv.
           apply (contents_weaken σj); [done| |done].
           apply insert_subseteq, not_elem_of_dom, is_fresh.
        -- constructor; [|constructor].
           rewrite /contents /= Hw Hws /=.
           rewrite (view_whole _ lb bs) //. by rewrite lookup_insert_eq.
      * apply Forall2_app; [done|]. constructor; [|constructor].
        by rewrite /= Hc /= /entry Hws.
      * apply Forall2_app; [done|]. constructor; [|constructor].
        exists c. split_and!; [done..|]. simpl. intros Hin.
        apply (is_fresh (dom (octets σj))). fold lb.
        by apply (subseteq_dom _ _ Ho).
Qed.

Lemma All_ok_full σ s t :
  tables σ !! s = Some t →
  (∀ k p, t !! k = Some p →
     ∃ c, meters σ !! p = Some c ∧ is_Some (view (words σ) (subCounter.Ssid c))) →
  ∃ a σ' es X,
    All s σ = Ok (a, σ') ∧ extends σ σ' ∧
    meters σ' = meters σ ∧ tables σ' = tables σ ∧
    view (clones σ') a = Some es ∧
    snapshot σ' a = Some X ∧ entries σ t = Some X ∧
    (base a ∉ dom (clones σ)) ∧
    Forall2 (copied_from σ) es (map_to_list t).
Proof.
  intros Ht Hwf.
  set (lc := fresh (dom (clones σ))).
  set (σ0 := set_clones <[lc := replicate (size t) zero]> σ).
  assert (lc ∉ dom (clones σ)) as Hlc by apply is_fresh.
  destruct (for_each_ok (All_inv σ t lc)
              (λ '(_, m) clone,
                 c ← load_meter m;
                 ch ← bytes_of_string (subCounter.Channel c);
                 append clone [cluster.mkSubscription (subCounter.Ssid c) ch])
              (map_to_list t) (Slice lc 0 0 (size t)) σ0)
    as (b' & σ' & Hf & Hinv).
  { split_and!; try done. exists [], []. split_and!; [|constructor..].
    by rewrite /= Nat.sub_0_r. }
  { intros done [k p] rest b σj Hxs HI. by eapply All_step. }
  destruct Hinv as (-> & Hw & Hm & Htb & Ho & es & X & Hcl & Hes & Hdone & Hcp).
  rewrite length_map_to_list Nat.sub_diag /= app_nil_r in Hcl.
  assert (length es = size t) as Hlen.
  { rewrite (Forall2_length _ _ _ Hes) -(Forall2_length _ _ _ Hdone).
    apply length_map_to_list. }
  assert (view (clones σ') (Slice lc 0 (length (map_to_list t)) (size t)) = Some es)
    as Hview.
  { rewrite length_map_to_list -Hlen.
    rewrite (view_whole _ lc es) //. by rewrite Hcl lookup_insert_eq. }
  exists (Slice lc 0 (length (map_to_list t)) (size t)), σ', es, X.
  split_and!; try done.
  - rewrite /All. mload.
    mstep ltac:(by rewrite /make /alloc length_replicate).
    exact Hf.
  - split_and!; [done..|]. rewrite Hcl. by apply insert_subseteq, not_elem_of_dom.
  - rewrite /snapshot Hview /=. by apply mapM_Some.
  - by apply mapM_Some.
Qed.

Lemma All_ok σ s t :
  tables σ !! s = Some t →
  (∀ k p, t !! k = Some p →
     ∃ c, meters σ !! p = Some c ∧ is_Some (view (words σ) (subCounter.Ssid c))) →
  ∃ a σ' X,
    All s σ = Ok (a, σ') ∧ extends σ σ' ∧
    meters σ' = meters σ ∧ tables σ' = tables σ ∧
    snapshot σ' a = Some X ∧ entries σ t = Some X.
Proof.
  intros Ht Hwf.
  destruct (All_ok_full σ s t Ht Hwf) as (a & σ' & es & X & H).
  exists a, σ', X. by destruct_and!.
Qed.

Lemma append_clones_inv b x σ b' σ' :
  append (H := clones_arrays) b [x] σ = Ok (b', σ') →
  words σ' = words σ ∧ meters σ' = meters σ ∧ tables σ' = tables σ ∧
  octets σ' = octets σ ∧
  (base b' = base b ∨ base b' = fresh (dom (clones σ))) ∧
  ∃ arr, clones σ' = <[base b' := arr]> (clones σ).
Proof.
  rewrite /append. case_decide.
  - intros (a & σ1 & Ha & Hr)%bind_inv.
    apply lift_lookup_inv in Ha as [Ha ->].
    case_decide; [|done]. injection Hr as <- <-.
    split_and!; eauto.
  - intros (old & σ1 & Hold & Hr)%bind_inv.
    rewrite /read in Hold. apply lift_lookup_inv in Hold as [Hold ->].
    injection Hr as <- <-. split_and!; eauto.
Qed.

Lemma All_frame s σ a σ' :
  All s σ = Ok (a, σ') →
  extends σ σ' ∧ meters σ' = meters σ ∧ tables σ' = tables σ.
Proof.
  rewrite /All. intros (t & σ1 & Ht & Hr)%bind_inv.
  apply load_table_inv in Ht as [Ht Hσ]. subst σ1.
  apply bind_inv in Hr as (b & σ0 & Hb & Hr).
  injection Hb as <- <-.
  set (J := λ (b : slice) (σj : Heap),
         (base b ∉ dom (clones σ)) ∧ words σj = words σ ∧ meters σj = meters σ ∧
         tables σj = tables σ ∧ octets σ ⊆ octets σj ∧ clones σ ⊆ clones σj).
  cut (J a σ').
  { intros (_ & ? & ? & ? & ? & ?). by split_and!. }
  eapply (for_each_inv J); [exact Hr| |].
  - split_and!; simpl; try done.
    + apply is_fresh.
    + apply insert_subseteq, not_elem_of_dom, is_fresh.
  - clear. intros [k p] b σj b' σ' (Hb & Hw & Hm & Htb & Ho & Hcl) Hbody.
    apply bind_inv in Hbody as (c & σ1 & Hc & Hbody).
    apply load_meter_inv in Hc as [Hc Hσ]. subst σ1.
    apply bind_inv in Hbody as (ch & σ1 & Hch & Hbody).
    injection Hch as <- <-.
    apply append_clones_inv in Hbody
      as (Hw' & Hm' & Ht' & Ho' & Hbase & arr & Hcl').
    simpl in *. split_and!.
    + destruct Hbase as [->| ->]; [done|].
      intros Hin. apply (is_fresh (dom (clones σj))).
      apply elem_of_dom. apply elem_of_dom in Hin as [v Hv].
      exists v. by eapply lookup_weaken.
    + congruence.
    + congruence.
    + congruence.
    + rewrite Ho'. etrans; [exact Ho|].
      apply insert_subseteq, not_elem_of_dom, is_fresh.
    + rewrite Hcl'. apply insert_subseteq_r; [|done].
      apply not_elem_of_dom.
      destruct Hbase as [->| ->]; [done|].
      intros Hin. apply (is_fresh (dom (clones σj))).
      apply elem_of_dom. apply elem_of_dom in Hin as [v Hv].
      exists v. by eapply lookup_weaken.
Qed.

(** ** Calls leave the arrays alone *)

Lemma extends_refl σ : extends σ σ.
Proof. by split_and!. Qed.

Lemma extends_trans σ1 σ2 σ3 : extends σ1 σ2 → extends σ2 σ3 → extends σ1 σ3.
Proof.
  intros (Hw & Ho & Hc) (Hw' & Ho' & Hc'). split_and!.
  - congruence.
  - by etrans.
  - by etrans.
Qed.

Lemma call_extends w s c σ u σ' : call w s c σ = Ok (u, σ') → extends σ σ'.
Proof.
  destruct c as [ssid channel|ssid|]; simpl.
  - intros (x & l & t & _ & _ & H)%Increment_inv.
    destruct (t !! foldl Z.lxor x l).
    + destruct H as (c & _ & ->). by split_and!.
    + subst σ'. by split_and!.
  - intros (x & l & t & _ & _ & H)%Decrement_inv.
    destruct (t !! foldl Z.lxor x l).
    + destruct H as (c & _ & ->). case_decide; by split_and!.
    + subst σ'. by split_and!.
  - intros (a & σ1 & Ha & Hr)%bind_inv. injection Hr as _ <-.
    by apply All_frame in Ha as [? _].
Qed.

Lemma calls_extends w s cs σ σ' : calls w s cs σ = Ok (tt, σ') → extends σ σ'.
Proof.
  revert σ. induction cs as [|c cs IH]; intros σ; simpl.
  - intros [= <-]. apply extends_refl.
  - intros (u & σ1 & Hc & Hcs)%bind_inv.
    eapply extends_trans; [by eapply call_extends|by apply IH].
Qed.

(** * The claims *)

(** C7: on a non-empty SSID, GetHashCode returns the XOR of all elements,
    which is element 0 with every remaining element folded in; it is a
    32-bit value when the elements are; the store, hence the SSID, is left as
    it was, so a second call returns the same value. *)
Theorem GetHashCode_xor_all σ s x l :
  view (words σ) s = Some (x :: l) →
  GetHashCode s σ = Ok (xor_all (x :: l), σ) ∧
  xor_all (x :: l) = foldl Z.lxor x l ∧
  (Forall is_uint32 (x :: l) → is_uint32 (xor_all (x :: l))) ∧
  (h1 ← GetHashCode s; h2 ← GetHashCode s; mret (h1, h2)) σ
  = Ok ((xor_all (x :: l), xor_all (x :: l)), σ).
Proof.
  intros Hv.
  assert (GetHashCode s σ = Ok (xor_all (x :: l), σ)) as Hh.
  { rewrite (GetHashCode_view _ _ _ _ Hv). by rewrite foldl_lxor. }
  split_and!.
  - done.
  - by rewrite foldl_lxor.
  - apply xor_all_uint32.
  - by do 2 mstep ltac:(exact Hh).
Qed.

Lemma GetHashCode_xor_all_witness :
  view (words demo) ssid_5_7_9 = Some [5; 7; 9] ∧
  GetHashCode ssid_5_7_9 demo = Ok (11, demo).
Proof.
  split; [reflexivity|].
  apply (GetHashCode_xor_all demo ssid_5_7_9 5 [7; 9]). reflexivity.
Defined.

(** C8: for a scope value [contract] and a parsed channel whose query holds
    the tokens [q], NewSsid returns a slice of a fresh array holding
    [contract] followed by [q], of length [length q + 1]; Contract applied
    to it returns [contract]; the arrays already in the store are as they
    were. *)
Theorem NewSsid_Contract σ contract ch q :
  is_uint32 contract →
  view (words σ) (security.Query ch) = Some q →
  ∃ s σ',
    NewSsid contract (Some ch) σ = Ok (s, σ') ∧
    view (words σ') s = Some ([contract] ++ q) ∧
    len s = (length q + 1)%nat ∧ (1 ≤ len s)%nat ∧
    Contract s σ' = Ok (contract, σ') ∧
    (base s ∉ dom (words σ)) ∧ words σ ⊆ words σ'.
Proof.
  intros Hc Hq.
  set (lf := fresh (dom (words σ))).
  assert (lf ∉ dom (words σ)) as Hfresh by apply is_fresh.
  exists (Slice lf 0 (S (length q)) (S (length q))),
         (set_words <[lf := wrap32 contract :: q]> σ).
  assert (view (words (set_words <[lf := wrap32 contract :: q]> σ))
            (Slice lf 0 (S (length q)) (S (length q)))
          = Some (contract :: q)) as Hv.
  { rewrite (view_whole _ lf (wrap32 contract :: q)) /=.
    - by rewrite lookup_insert_eq.
    - by rewrite wrap32_uint32. }
  split_and!; simpl.
  - by apply NewSsid_view.
  - done.
  - lia.
  - lia.
  - rewrite (Contract_view _ _ _ _ Hv). by rewrite wrap32_uint32.
  - done.
  - by apply insert_subseteq, not_elem_of_dom.
Qed.

Lemma NewSsid_Contract_witness :
  is_uint32 3 ∧
  view (words demo) (security.Query (security.mkChannel ssid_5_7_9)) = Some [5; 7; 9] ∧
  ∃ s σ',
    NewSsid 3 (Some (security.mkChannel ssid_5_7_9)) demo = Ok (s, σ') ∧
    view (words σ') s = Some [3; 5; 7; 9] ∧
    Contract s σ' = Ok (3, σ').
Proof.
  assert (is_uint32 3) as H3 by (rewrite /is_uint32; lia).
  split; [exact H3|]. split; [reflexivity|].
  destruct (NewSsid_Contract demo 3 (security.mkChannel ssid_5_7_9) [5; 7; 9] H3 eq_refl)
    as (s & σ' & Hn & Hv & _ & _ & Hc & _).
  by exists s, σ'.
Defined.

(** C10: Contract and GetHashCode read element 0 without a guard.  On an
    empty SSID the access is out of range, and Increment and Decrement,
    which call GetHashCode first, panic in the same way.  On a non-empty
    SSID both reads are in bounds and return, and so do Increment and
    Decrement on a registry of the store. *)
Theorem element_0_needs_non_empty w σ r ssid channel :
  (len ssid = O →
     Contract ssid σ = Panic IndexOutOfRange ∧
     GetHashCode ssid σ = Panic IndexOutOfRange ∧
     Increment w r ssid channel σ = Panic IndexOutOfRange ∧
     Decrement w r ssid σ = Panic IndexOutOfRange) ∧
  (∀ x l, view (words σ) ssid = Some (x :: l) →
     (0 < len ssid)%nat ∧
     Contract ssid σ = Ok (wrap32 x, σ) ∧
     GetHashCode ssid σ = Ok (foldl Z.lxor x l, σ) ∧
     (registry_ok σ r →
        (∃ σ', Increment w r ssid channel σ = Ok (tt, σ')) ∧
        (∃ σ', Decrement w r ssid σ = Ok (tt, σ')))).
Proof.
  split.
  - intros Hlen. split_and!.
    + by apply Contract_empty.
    + by apply GetHashCode_empty.
    + rewrite /Increment /getOrCreate.
      do 2 apply bind_Panic. by apply GetHashCode_empty.
    + rewrite /Decrement. apply bind_Panic. by apply GetHashCode_empty.
  - intros x l Hv. split_and!.
    + rewrite -(view_length _ _ _ Hv) /=. lia.
    + by eapply Contract_view.
    + by apply GetHashCode_view.
    + intros (t & Ht & Hwf & _). split.
      * destruct (t !! foldl Z.lxor x l) as [p|] eqn:Hp.
        -- destruct (Hwf _ _ Hp) as (c & Hc & _).
           eexists. by eapply Increment_present.
        -- eexists. by eapply Increment_absent.
      * destruct (t !! foldl Z.lxor x l) as [p|] eqn:Hp.
        -- destruct (Hwf _ _ Hp) as (c & Hc & _).
           destruct (decide (wrapInt w (subCounter.Counter c - 1) ≤ 0)).
           ++ eexists. by eapply Decrement_removed.
           ++ eexists. eapply Decrement_retained; [done..|lia].
        -- eexists. by eapply Decrement_absent.
Qed.

Lemma element_0_needs_non_empty_witness :
  (Contract nil demo = Panic IndexOutOfRange ∧
   GetHashCode nil demo = Panic IndexOutOfRange ∧
   Increment Int64 1 nil "a/b" demo = Panic IndexOutOfRange ∧
   Decrement Int64 1 nil demo = Panic IndexOutOfRange) ∧
  view (words demo) ssid_1_42 = Some [1; 42] ∧
  Contract ssid_1_42 demo = Ok (1, demo) ∧
  GetHashCode ssid_1_42 demo = Ok (43, demo).
Proof.
  split; [|split; [reflexivity|]].
  - by apply (element_0_needs_non_empty Int64 demo 1 nil "a/b").
  - destruct (proj2 (element_0_needs_non_empty Int64 demo 1 ssid_1_42 "a/b")
                1 [42] eq_refl) as (_ & Hc & Hh & _).
    split; [exact Hc|exact Hh].
Defined.

(** C4: Decrement on an SSID whose hash has no entry returns without a
    panic and leaves the store, hence the registry and what All returns,
    as it was. *)
Theorem Decrement_absent_is_no_op w σ s t ssid x l :
  view (words σ) ssid = Some (x :: l) →
  tables σ !! s = Some t →
  t !! foldl Z.lxor x l = None →
  ∃ σ', Decrement w s ssid σ = Ok (tt, σ') ∧ σ' = σ ∧
        tables σ' !! s = Some t ∧ All s σ' = All s σ.
Proof.
  intros Hv Ht Hkey. exists σ. split_and!; try done.
  by eapply Decrement_absent.
Qed.

Lemma Decrement_absent_is_no_op_witness :
  view (words demo) ssid_1_42 = Some [1; 42] ∧
  tables demo !! 1%positive = Some ∅ ∧
  (∅ : gmap Z positive) !! foldl Z.lxor 1 [42] = None ∧
  Decrement Int64 1 ssid_1_42 demo = Ok (tt, demo).
Proof.
  split_and!; [reflexivity..|].
  destruct (Decrement_absent_is_no_op Int64 demo 1 ∅ ssid_1_42 1 [42]
              eq_refl eq_refl eq_refl) as (σ' & Hd & -> & _).
  exact Hd.
Defined.

(** ** Subscribers *)

Lemma Contains_elem_of (s : list positive) value :
  Contains s value = true ↔ value ∈ s.
Proof.
  induction s as [|v s IH]; simpl.
  - split; [done|]. by intros ?%elem_of_nil.
  - case_decide as Hv.
    + subst. split; [intros _; by left|done].
    + rewrite IH. split; [by right|].
      intros [?|?]%elem_of_cons; [by subst|done].
Qed.

Lemma AddUnique_old (s : list positive) value :
  value ∈ s → AddUnique s value = s.
Proof.
  intros Hin%Contains_elem_of. by rewrite /AddUnique Hin.
Qed.

Lemma AddUnique_new (s : list positive) value :
  value ∉ s → AddUnique s value = s ++ [value].
Proof.
  intros Hin. rewrite /AddUnique.
  destruct (Contains s value) eqn:Hc; [|done].
  by apply Contains_elem_of in Hc.
Qed.

Lemma AddUnique_all (adds : list positive) :
  NoDup (foldl AddUnique [] adds) ∧
  ∀ x, x ∈ foldl AddUnique [] adds ↔ x ∈ adds.
Proof.
  induction adds as [|v adds [IHnd IHin]] using rev_ind.
  - split; [constructor|done].
  - rewrite foldl_app /=.
    destruct (decide (v ∈ foldl AddUnique [] adds)) as [Hin|Hin].
    + rewrite AddUnique_old //. split; [done|].
      intros x. rewrite elem_of_app list_elem_of_singleton IHin.
      split; [by left|]. intros [?| ->]; [done|]. by apply IHin.
    + rewrite AddUnique_new //. split.
      * apply NoDup_app. split_and!; [done| |apply NoDup_singleton].
        intros x Hx ->%list_elem_of_singleton. done.
      * intros x. by rewrite !elem_of_app IHin.
Qed.

(** C6: after any sequence of AddUnique calls on an empty set, the set holds
    no subscriber twice, its size is the number of distinct subscribers
    added, and Contains answers true exactly for the subscribers added. *)
Theorem AddUnique_is_a_set (adds : list positive) :
  NoDup (foldl AddUnique [] adds) ∧
  length (foldl AddUnique [] adds) = size (list_to_set adds : gset positive) ∧
  ∀ x, Contains (foldl AddUnique [] adds) x = true ↔ x ∈ adds.
Proof.
  destruct (AddUnique_all adds) as [Hnd Hin]. split_and!.
  - done.
  - rewrite -(size_list_to_set (C := gset positive)) //.
    f_equal. apply set_eq. intros x. by rewrite !elem_of_list_to_set.
  - intros x. by rewrite Contains_elem_of.
Qed.

(** ** Hash collisions *)

Lemma foldl_lxor_Permutation x l l' :
  l ≡ₚ l' → foldl Z.lxor x l = foldl Z.lxor x l'.
Proof. intros Hp. by rewrite !foldl_lxor (xor_all_Permutation _ _ Hp). Qed.

Lemma MaxInt_large w : 2147483647 ≤ MaxInt w.
Proof. by destruct w. Qed.

(** C3: the combined hash does not depend on the order of the elements
    after element 0: two SSIDs with the same element 0 whose remaining
    elements are permutations of each other have the same hash, and a
    registry files an Increment of the second under the bucket the first
    created.  There are two different SSIDs of length at least 2 with the
    same hash. *)
Theorem GetHashCode_order_insensitive :
  (∀ w σ r t s s' x l l' channel channel',
     view (words σ) s = Some (x :: l) →
     view (words σ) s' = Some (x :: l') →
     l ≡ₚ l' →
     (∃ h, GetHashCode s σ = Ok (h, σ) ∧ GetHashCode s' σ = Ok (h, σ)) ∧
     (tables σ !! r = Some t → t !! foldl Z.lxor x l = None →
        ∃ p σ',
          calls w r [CallIncrement s channel; CallIncrement s' channel'] σ = Ok (tt, σ') ∧
          tables σ' !! r = Some (<[foldl Z.lxor x l := p]> t) ∧
          meters σ' !! p = Some (subCounter.mk s channel 2))) ∧
  (∃ σ s s' l l',
     view (words σ) s = Some l ∧ view (words σ) s' = Some l' ∧
     l ≠ l' ∧ (2 ≤ length l)%nat ∧ (2 ≤ length l')%nat ∧
     ∃ h, GetHashCode s σ = Ok (h, σ) ∧ GetHashCode s' σ = Ok (h, σ)).
Proof.
  split.
  - intros w σ r t s s' x l l' channel channel' Hv Hv' Hperm.
    pose proof (foldl_lxor_Permutation x _ _ Hperm) as Hkey.
    split.
    + exists (foldl Z.lxor x l). split; [by apply GetHashCode_view|].
      rewrite Hkey. by apply GetHashCode_view.
    + intros Ht Hnone.
      exists (fresh (dom (meters σ))),
        (filed σ r t (foldl Z.lxor x l) (fresh (dom (meters σ)))
           (subCounter.mk s channel 2)).
      split_and!.
      * cbn [calls call].
        mstep ltac:(by apply (Increment_files w σ r t s x l)).
        mstep ltac:(rewrite Hkey; by apply (Increment_filed w σ r t s' x l')).
        rewrite /with_count /= wrapInt_small ?Hkey //.
        pose proof (MaxInt_large w). pose proof (MinInt_neg w). lia.
      * by rewrite /= lookup_insert_eq.
      * by rewrite /= lookup_insert_eq.
  - exists demo, ssid_5_7_9, ssid_5_9_7, [5; 7; 9], [5; 9; 7].
    split_and!; [reflexivity|reflexivity|done|simpl; lia|simpl; lia|].
    exists 11. split; reflexivity.
Qed.

Lemma GetHashCode_order_insensitive_witness :
  view (words demo) ssid_5_7_9 = Some [5; 7; 9] ∧
  view (words demo) ssid_5_9_7 = Some [5; 9; 7] ∧
  [7; 9] ≡ₚ [9; 7] ∧
  ∃ h, GetHashCode ssid_5_7_9 demo = Ok (h, demo) ∧
       GetHashCode ssid_5_9_7 demo = Ok (h, demo).
Proof.
  assert ([7; 9] ≡ₚ [9; 7]) as Hperm by apply perm_swap.
  split_and!; [reflexivity|reflexivity|exact Hperm|].
  exact (proj1 (proj1 GetHashCode_order_insensitive Int64 demo 1%positive ∅
                  ssid_5_7_9 ssid_5_9_7 5 [7; 9] [9; 7] "a"%string "b"%string
                  eq_refl eq_refl Hperm)).
Defined.

(** ** Reference counting *)

Lemma mapM_ext_Forall {A B} (f g : A → option B) l :
  Forall (λ x, f x = g x) l → mapM f l = mapM g l.
Proof.
  induction 1 as [|x l Hx _ IH]; [done|]. simpl. by rewrite Hx IH.
Qed.

Lemma entries_set_meters σ t p c :
  (∀ k p', t !! k = Some p' → p' ≠ p) →
  entries (set_meters <[p := c]> σ) t = entries σ t.
Proof.
  intros Hne. apply mapM_ext_Forall, Forall_forall. intros [k p'] Hin.
  apply elem_of_map_to_list in Hin. simpl.
  by rewrite lookup_insert_ne; [apply not_eq_sym, (Hne k)|].
Qed.

Section Lifecycle.
Context (w : IntSize) (σ : Heap) (s : loc) (t : gmap Z loc).
Context (ssid : slice) (x : Z) (l : list Z) (channel : string).
Hypothesis Hview : view (words σ) ssid = Some (x :: l).
Hypothesis Htable : tables σ !! s = Some t.
Hypothesis Habsent : t !! foldl Z.lxor x l = None.

Local Abbreviation key := (foldl Z.lxor x l).
Local Abbreviation p := (fresh (dom (meters σ))).

Lemma Increments_from_absent n :
  calls w s (replicate (S n) (CallIncrement ssid channel)) σ
  = Ok (tt, filed σ s t key p
              (subCounter.mk ssid channel (wrapInt w (1 + Z.of_nat n)))).
Proof.
  cbn [replicate calls call].
  mstep ltac:(by apply (Increment_files w σ s t ssid x l)).
  rewrite (Increments_filed w σ s t ssid x l Hview) //=.
  apply wrapInt_small. pose proof (MaxInt_pos w). pose proof (MinInt_neg w). lia.
Qed.

Lemma count_up_and_down n :
  1 + Z.of_nat n ≤ MaxInt w →
  calls w s (replicate (S n) (CallIncrement ssid channel)
               ++ replicate n (CallDecrement ssid)) σ
  = Ok (tt, filed σ s t key p (subCounter.mk ssid channel 1)).
Proof.
  intros Hn. pose proof (MinInt_neg w).
  rewrite (calls_app _ _ _ _ _ _ (Increments_from_absent n)).
  rewrite wrapInt_small; [lia|].
  rewrite (Decrements_filed w σ s t ssid x l Hview) /=; [lia|].
  rewrite /with_count /=. do 4 f_equal. lia.
Qed.

Lemma last_Decrement :
  Decrement w s ssid (filed σ s t key p (subCounter.mk ssid channel 1))
  = Ok (tt, set_meters <[p := subCounter.mk ssid channel 0]> σ).
Proof.
  pose proof (MaxInt_pos w). pose proof (MinInt_neg w).
  rewrite (Decrement_filed_removed w σ s t ssid x l Hview Htable) //=.
  all: rewrite wrapInt_small //; lia.
Qed.

End Lifecycle.

Lemma wrapInt_after_MaxInt w : wrapInt w (MaxInt w + 1) = MinInt w.
Proof. by destruct w. Qed.

Lemma wrapInt_before_MinInt w : wrapInt w (MinInt w - 1) = MaxInt w.
Proof. by destruct w. Qed.

(** Counting to the very end of the range of [int] and one further: the
    counter wraps to [MinInt], the first Decrement wraps it back to
    [MaxInt], and the bucket is never removed on the way down to 1. *)
Lemma count_up_and_down_edge w σ s t ssid x l channel n :
  view (words σ) ssid = Some (x :: l) →
  tables σ !! s = Some t →
  t !! foldl Z.lxor x l = None →
  Z.of_nat n = MaxInt w →
  calls w s (replicate (S n) (CallIncrement ssid channel)
               ++ replicate n (CallDecrement ssid)) σ
  = Ok (tt, filed σ s t (foldl Z.lxor x l) (fresh (dom (meters σ)))
              (subCounter.mk ssid channel 1)).
Proof.
  intros Hv Ht Hkey Hn. pose proof (MaxInt_pos w) as Hmax.
  rewrite (calls_app _ _ _ _ _ _
             (Increments_from_absent w σ s t ssid x l channel Hv Ht Hkey n)).
  replace (1 + Z.of_nat n) with (MaxInt w + 1) by lia.
  rewrite wrapInt_after_MaxInt.
  destruct n as [|n]; [simpl in Hn; lia|].
  cbn [replicate calls call].
  mstep ltac:(apply (Decrement_filed_retained w σ s t ssid x l Hv); simpl;
              rewrite wrapInt_before_MinInt; lia).
  rewrite (Decrements_filed w σ s t ssid x l Hv) /= wrapInt_before_MinInt; [lia|].
  rewrite /with_count /=. do 4 f_equal. lia.
Qed.

Lemma wrapInt_past_MaxInt w : wrapInt w (MaxInt w + 2) = MinInt w + 1.
Proof. by destruct w. Qed.

Lemma wrapInt_MinInt w : wrapInt w (MinInt w) = MinInt w.
Proof. by destruct w. Qed.

(** Counting one past the range of [int]: after [MaxInt + 2] Increments the
    counter has wrapped to [MinInt + 1], the first Decrement takes it to
    [MinInt], which is not above 0, and removes the bucket; the Decrements
    that follow find nothing. *)
Lemma lifecycle_wraps w σ s t ssid x l channel :
  view (words σ) ssid = Some (x :: l) →
  tables σ !! s = Some t →
  t !! foldl Z.lxor x l = None →
  calls w s (replicate (Z.to_nat (MaxInt w + 2)) (CallIncrement ssid channel)
               ++ replicate (Z.to_nat (MaxInt w + 2) - 1) (CallDecrement ssid)) σ
  = Ok (tt, set_meters
              <[fresh (dom (meters σ)) := subCounter.mk ssid channel (MinInt w)]> σ).
Proof.
  intros Hv Ht Hkey. pose proof (MaxInt_pos w) as Hmax.
  replace (Z.to_nat (MaxInt w + 2)) with (S (S (Z.to_nat (MaxInt w)))) by lia.
  replace (S (S (Z.to_nat (MaxInt w))) - 1)%nat with (S (Z.to_nat (MaxInt w))) by lia.
  rewrite (calls_app _ _ _ _ _ _
             (Increments_from_absent w σ s t ssid x l channel Hv Ht Hkey _)).
  replace (1 + Z.of_nat (S (Z.to_nat (MaxInt w)))) with (MaxInt w + 2) by lia.
  rewrite wrapInt_past_MaxInt.
  cbn [replicate calls call].
  mstep ltac:(apply (Decrement_filed_removed w σ s t ssid x l Hv Ht); [done|];
              simpl; rewrite Z.add_simpl_r wrapInt_MinInt; apply MinInt_neg).
  rewrite /with_count /= Z.add_simpl_r wrapInt_MinInt.
  by apply (Decrements_absent w _ s t ssid x l).
Qed.

(** C1, as amended: for a non-empty SSID whose hash has no entry in a
    registry, and 1 <= N <= MaxInt + 1, N Increments followed by N-1
    Decrements leave the registry with its former entries and one more,
    filed under that hash, holding the SSID, the channel and the count 1;
    one more Decrement removes it, the registry has its former entries
    again, and All returns exactly those. *)
Theorem Increment_Decrement_lifecycle w σ s t ssid x l channel N :
  view (words σ) ssid = Some (x :: l) →
  registry_ok σ s →
  tables σ !! s = Some t →
  t !! foldl Z.lxor x l = None →
  (1 ≤ N)%nat →
  Z.of_nat N ≤ MaxInt w + 1 →
  ∃ p σ1 σ2 a σ3 X,
    calls w s (replicate N (CallIncrement ssid channel)
                 ++ replicate (N - 1) (CallDecrement ssid)) σ = Ok (tt, σ1) ∧
    tables σ1 !! s = Some (<[foldl Z.lxor x l := p]> t) ∧
    bucket σ1 s (foldl Z.lxor x l) = Some (subCounter.mk ssid channel 1) ∧
    Decrement w s ssid σ1 = Ok (tt, σ2) ∧
    tables σ2 !! s = Some t ∧
    bucket σ2 s (foldl Z.lxor x l) = None ∧
    All s σ2 = Ok (a, σ3) ∧
    snapshot σ3 a = Some X ∧ entries σ t = Some X.
Proof.
  intros Hv (t' & Ht' & Hwf & _) Ht Hkey HN Hmax.
  assert (t' = t) as -> by congruence.
  destruct N as [|n]; [lia|].
  replace (S n - 1)%nat with n by lia.
  set (p := fresh (dom (meters σ))).
  set (σ2 := set_meters <[p := subCounter.mk ssid channel 0]> σ).
  assert (∀ k p', t !! k = Some p' → p' ≠ p) as Hne.
  { intros k p' Hp' ->. destruct (Hwf _ _ Hp') as (c & Hc & _).
    apply (is_fresh (dom (meters σ))). apply elem_of_dom. by exists c. }
  destruct (All_ok σ2 s t) as (a & σ3 & X & Ha & _ & _ & _ & Hsnap & Hent).
  { done. }
  { intros k p' Hp'. destruct (Hwf _ _ Hp') as (c & Hc & Hvc).
    exists c. split; [|done]. rewrite /= lookup_insert_ne //.
    apply not_eq_sym. by eapply Hne. }
  exists p, (filed σ s t (foldl Z.lxor x l) p (subCounter.mk ssid channel 1)),
    σ2, a, σ3, X.
  split_and!.
  - destruct (decide (Z.of_nat n = MaxInt w)) as [Hedge|Hin].
    + by apply count_up_and_down_edge.
    + apply count_up_and_down; [done..|lia].
  - by rewrite /= lookup_insert_eq.
  - by rewrite /bucket /= lookup_insert_eq /= lookup_insert_eq /= lookup_insert_eq.
  - by apply last_Decrement.
  - done.
  - by rewrite /bucket /= Ht /= Hkey.
  - done.
  - done.
  - by rewrite -(entries_set_meters σ t p (subCounter.mk ssid channel 0)).
Qed.

Lemma Increment_Decrement_lifecycle_witness :
  view (words demo) ssid_1_42 = Some [1; 42] ∧
  registry_ok demo 1 ∧
  (3 ≤ MaxInt Int64 + 1) ∧
  ∃ σ1,
    calls Int64 1 (replicate 3 (CallIncrement ssid_1_42 "a/b")
                     ++ replicate (3 - 1) (CallDecrement ssid_1_42)) demo = Ok (tt, σ1) ∧
    bucket σ1 1 43 = Some (subCounter.mk ssid_1_42 "a/b" 1) ∧
    ∃ σ2, Decrement Int64 1 ssid_1_42 σ1 = Ok (tt, σ2) ∧ bucket σ2 1 43 = None.
Proof.
  assert (registry_ok demo 1) as Hok.
  { exists ∅. split_and!; [reflexivity|intros ?? [=]|intros ??? [=]]. }
  assert (3 ≤ MaxInt Int64 + 1) as Hmax by (vm_compute; discriminate).
  split_and!; [reflexivity|exact Hok|exact Hmax|].
  destruct (Increment_Decrement_lifecycle Int64 demo 1 ∅ ssid_1_42 1 [42] "a/b" 3
              eq_refl Hok eq_refl eq_refl ltac:(lia) Hmax)
    as (p & σ1 & σ2 & a & σ3 & X & H1 & _ & H2 & H3 & _ & H4 & _).
  exists σ1. split_and!; [exact H1|exact H2|].
  exists σ2. by split.
Defined.

(** C1, as stated, fails once the count leaves the range of [int]: with
    N = MaxInt + 2, after N Increments and N-1 Decrements the registry has
    no entry for the hash, on 64-bit and on 32-bit targets alike. *)
Lemma lifecycle_overflow_counterexample :
  view (words demo) ssid_1_42 = Some [1; 42] ∧
  bucket demo 1 (foldl Z.lxor 1 [42]) = None ∧
  (1 ≤ Z.to_nat (MaxInt Int64 + 2))%nat ∧
  (1 ≤ Z.to_nat (MaxInt Int32 + 2))%nat ∧
  (∃ σ',
     calls Int64 1
       (replicate (Z.to_nat (MaxInt Int64 + 2)) (CallIncrement ssid_1_42 "a/b")
          ++ replicate (Z.to_nat (MaxInt Int64 + 2) - 1) (CallDecrement ssid_1_42))
       demo = Ok (tt, σ') ∧
     bucket σ' 1 43 = None) ∧
  (∃ σ',
     calls Int32 1
       (replicate (Z.to_nat (MaxInt Int32 + 2)) (CallIncrement ssid_1_42 "a/b")
          ++ replicate (Z.to_nat (MaxInt Int32 + 2) - 1) (CallDecrement ssid_1_42))
       demo = Ok (tt, σ') ∧
     bucket σ' 1 43 = None).
Proof.
  split; [reflexivity|]. split; [reflexivity|].
  split; [pose proof (MaxInt_pos Int64); lia|].
  split; [pose proof (MaxInt_pos Int32); lia|].
  split.
  - eexists. split.
    + by apply (lifecycle_wraps Int64 demo 1 ∅ ssid_1_42 1 [42] "a/b").
    + reflexivity.
  - eexists. split.
    + by apply (lifecycle_wraps Int32 demo 1 ∅ ssid_1_42 1 [42] "a/b").
    + reflexivity.
Qed.

(** ** The first Increment decides what a bucket records *)

Lemma entries_recount σ t p c n :
  meters σ !! p = Some c →
  entries (set_meters <[p := with_count c n]> σ) t = entries σ t.
Proof.
  intros Hc. apply mapM_ext_Forall, Forall_forall. intros [k p'] _. simpl.
  destruct (decide (p' = p)) as [->|Hne].
  - by rewrite lookup_insert_eq Hc.
  - by rewrite lookup_insert_ne.
Qed.

Lemma entries_elem_of σ t k p c X :
  entries σ t = Some X → t !! k = Some p → meters σ !! p = Some c →
  ∃ v, entry σ c = Some v ∧ v ∈ X.
Proof.
  intros HX%mapM_Some Hp Hc.
  apply elem_of_map_to_list, list_elem_of_lookup in Hp as [i Hi].
  destruct (Forall2_lookup_l _ _ _ _ _ HX Hi) as (v & Hv & Hf).
  simpl in Hf. rewrite Hc /= in Hf.
  exists v. split; [done|]. apply list_elem_of_lookup. eauto.
Qed.

(** C9: the Increment that creates a bucket records its SSID and channel
    with the count 1.  An Increment that finds a bucket under the hash of
    its SSID, whatever that SSID and its channel are, replaces the count by
    its successor (as [int] computes it: the count plus 1 below MaxInt) and
    nothing else: the bucket keeps the SSID and the channel it has, every
    other bucket is as it was, and All reports what it reported before, the
    recorded entry among it. *)
Theorem first_Increment_wins :
  (∀ w σ s t ssid x l channel,
     view (words σ) ssid = Some (x :: l) →
     tables σ !! s = Some t →
     t !! foldl Z.lxor x l = None →
     ∃ σ', Increment w s ssid channel σ = Ok (tt, σ') ∧
           bucket σ' s (foldl Z.lxor x l) = Some (subCounter.mk ssid channel 1)) ∧
  (∀ w σ s t ssid2 x l channel2 p c,
     view (words σ) ssid2 = Some (x :: l) →
     registry_ok σ s →
     tables σ !! s = Some t →
     t !! foldl Z.lxor x l = Some p →
     meters σ !! p = Some c →
     ∃ σ' a σ'' X v,
       Increment w s ssid2 channel2 σ = Ok (tt, σ') ∧
       tables σ' !! s = Some t ∧
       bucket σ' s (foldl Z.lxor x l)
       = Some (subCounter.mk (subCounter.Ssid c) (subCounter.Channel c)
                 (wrapInt w (subCounter.Counter c + 1))) ∧
       (MinInt w ≤ subCounter.Counter c < MaxInt w →
          wrapInt w (subCounter.Counter c + 1) = subCounter.Counter c + 1) ∧
       (∀ k, k ≠ foldl Z.lxor x l → bucket σ' s k = bucket σ s k) ∧
       All s σ' = Ok (a, σ'') ∧
       snapshot σ'' a = Some X ∧ entries σ t = Some X ∧
       entry σ c = Some v ∧ v ∈ X).
Proof.
  split.
  - intros w σ s t ssid x l channel Hv Ht Hkey. eexists. split.
    + by apply (Increment_files w σ s t ssid x l).
    + by rewrite /bucket /= lookup_insert_eq /= lookup_insert_eq /= lookup_insert_eq.
  - intros w σ s t ssid2 x l channel2 p c Hv (t' & Ht' & Hwf & Hinj) Ht Hp Hc.
    assert (t' = t) as -> by congruence.
    set (c' := with_count c (wrapInt w (subCounter.Counter c + 1))).
    set (σ' := set_meters <[p := c']> σ).
    destruct (All_ok σ' s t) as (a & σ'' & X & Ha & _ & _ & _ & Hsnap & Hent).
    { done. }
    { intros k p' Hp'. destruct (Hwf _ _ Hp') as (c0 & Hc0 & Hv0).
      destruct (decide (p' = p)) as [->|Hne].
      - exists c'. split; [by rewrite /= lookup_insert_eq|].
        simpl. by replace c with c0 by congruence.
      - exists c0. by rewrite /= lookup_insert_ne. }
    rewrite (entries_recount σ t p c _ Hc) in Hent.
    destruct (entries_elem_of σ t _ p c X Hent Hp Hc) as (v & Hv1 & Hv2).
    exists σ', a, σ'', X, v. split_and!; try done.
    + by apply (Increment_present w σ s t ssid2 x l).
    + by rewrite /bucket /= Ht /= Hp /= lookup_insert_eq.
    + intros Hr. apply wrapInt_small. lia.
    + intros k Hk. rewrite /bucket /= Ht /=.
      destruct (t !! k) as [p'|] eqn:Hp'; [|done]. simpl.
      rewrite lookup_insert_ne //. intros ->. apply Hk. by eapply Hinj.
Qed.

Lemma first_Increment_wins_witness :
  view (words demo) ssid_5_7_9 = Some [5; 7; 9] ∧
  view (words demo) ssid_5_9_7 = Some [5; 9; 7] ∧
  ∃ σ1 σ2,
    Increment Int64 1 ssid_5_7_9 "a/b" demo = Ok (tt, σ1) ∧
    bucket σ1 1 11 = Some (subCounter.mk ssid_5_7_9 "a/b" 1) ∧
    Increment Int64 1 ssid_5_9_7 "c/d" σ1 = Ok (tt, σ2) ∧
    bucket σ2 1 11 = Some (subCounter.mk ssid_5_7_9 "a/b" 2).
Proof.
  split_and!; [reflexivity..|].
  destruct (proj1 first_Increment_wins Int64 demo 1%positive ∅ ssid_5_7_9 5 [7; 9]
              "a/b"%string eq_refl eq_refl eq_refl) as (σ1 & H1 & H2).
  assert (σ1 = filed demo 1 ∅ 11 1 (subCounter.mk ssid_5_7_9 "a/b" 1)) as Hσ1.
  { assert (Increment Int64 1 ssid_5_7_9 "a/b" demo
            = Ok (tt, filed demo 1 ∅ 11 1 (subCounter.mk ssid_5_7_9 "a/b" 1))) as H
      by reflexivity.
    rewrite H in H1. by injection H1 as <-. }
  assert (registry_ok σ1 1) as Hok.
  { subst σ1. exists {[ 11 := 1%positive ]}. split_and!.
    - reflexivity.
    - intros k p [<- <-]%lookup_singleton_Some.
      exists (subCounter.mk ssid_5_7_9 "a/b" 1). split; [reflexivity|].
      by exists [5; 7; 9].
    - by intros k k' p [<- _]%lookup_singleton_Some [<- _]%lookup_singleton_Some. }
  destruct (proj2 first_Increment_wins Int64 σ1 1%positive {[ 11 := 1%positive ]}
              ssid_5_9_7 5 [9; 7] "c/d"%string 1%positive
              (subCounter.mk ssid_5_7_9 "a/b" 1))
    as (σ2 & a & σ3 & X & v & H3 & _ & H4 & _); [by subst σ1..|].
  exists σ1, σ2. split_and!; [exact H1|exact H2|exact H3|exact H4].
Defined.

(** ** Snapshots *)

Lemma demo_counted_ok : registry_ok demo_counted 1.
Proof.
  exists {[ 43 := 1%positive ]}. split_and!.
  - reflexivity.
  - intros k p [<- <-]%lookup_singleton_Some.
    exists (subCounter.mk ssid_1_42 "a/b" 1). split; [reflexivity|].
    by exists [1; 42].
  - by intros k k' p [<- _]%lookup_singleton_Some [<- _]%lookup_singleton_Some.
Qed.

(** C2, as amended: on a well-formed registry All returns a slice of a
    fresh array that holds one element for each bucket, and the contents of
    the snapshot are the entries of the map when All was called: the
    elements of the recorded SSIDs and the bytes of the recorded channels.
    Each element carries a fresh array with the bytes of the channel, and as
    its Ssid the slice header that the counter object holds, which shares
    its backing array with the registry.  Whatever Increment, Decrement and
    All calls follow, on this or any other registry, the elements of the
    returned slice and the contents they lead to are what they were when All
    returned: no call writes to an array behind an SSID. *)
Theorem All_snapshot_is_isolated w σ s t :
  registry_ok σ s →
  tables σ !! s = Some t →
  ∃ a σ1 es X,
    All s σ = Ok (a, σ1) ∧
    view (clones σ1) a = Some es ∧
    snapshot σ1 a = Some X ∧
    entries σ t = Some X ∧
    len a = size t ∧
    (base a ∉ dom (clones σ)) ∧
    Forall2 (copied_from σ) es (map_to_list t) ∧
    ∀ s' cs σ2,
      calls w s' cs σ1 = Ok (tt, σ2) →
      view (clones σ2) a = Some es ∧ snapshot σ2 a = Some X.
Proof.
  intros (t' & Ht' & Hwf & _) Ht. assert (t' = t) as -> by congruence.
  destruct (All_ok_full σ s t Ht Hwf)
    as (a & σ1 & es & X & Ha & _ & _ & _ & Hes & Hsnap & Hent & Hfresh & Hcp).
  exists a, σ1, es, X. split_and!; try done.
  - rewrite -(view_length _ _ _ Hes) (Forall2_length _ _ _ Hcp).
    apply length_map_to_list.
  - intros s' cs σ2 Hcalls.
    pose proof (calls_extends _ _ _ _ _ Hcalls) as Hext. split.
    + destruct Hext as (_ & _ & Hcl). by eapply view_weaken.
    + by eapply snapshot_extends.
Qed.

Lemma All_snapshot_is_isolated_witness :
  registry_ok demo_counted 1 ∧
  tables demo_counted !! 1%positive = Some {[ 43 := 1%positive ]} ∧
  ∃ a σ1,
    All 1 demo_counted = Ok (a, σ1) ∧
    snapshot σ1 a = Some [([1; 42], list_byte_of_string "a/b")] ∧
    ∀ σ2,
      calls Int64 1 [CallIncrement ssid_5_7_9 "c/d"; CallDecrement ssid_1_42] σ1
      = Ok (tt, σ2) →
      snapshot σ2 a = Some [([1; 42], list_byte_of_string "a/b")].
Proof.
  split; [exact demo_counted_ok|]. split; [reflexivity|].
  destruct (All_snapshot_is_isolated Int64 demo_counted 1 {[ 43 := 1%positive ]}
              demo_counted_ok eq_refl)
    as (a & σ1 & es & X & Ha & _ & Hsnap & Hent & _ & _ & _ & Hiso).
  assert (X = [([1; 42], list_byte_of_string "a/b")]) as -> by
    (vm_compute in Hent; by injection Hent as <-).
  exists a, σ1. split_and!; [exact Ha|exact Hsnap|].
  intros σ2 Hcalls. exact (proj2 (Hiso 1%positive _ σ2 Hcalls)).
Defined.

(** C2, as stated, fails in its last part: an element of the snapshot does
    alias state of the registry.  All copies the slice header of the
    recorded SSID, so the element and the counter object share one backing
    array.  After Increment of the SSID [1 42] and All, a write of 44 to
    element 0 of the Ssid of the snapshot's element makes the registry's
    bucket under the key 43 record the SSID [44 42], whose hash is 6, and
    the snapshot read [44 42] as well. *)
Lemma snapshot_shares_ssid_counterexample :
  All 1 demo_counted = Ok (demo_snapshot_slice, demo_snapshot) ∧
  index demo_snapshot_slice 0 demo_snapshot = Ok (demo_snapshot_element, demo_snapshot) ∧
  snapshot demo_snapshot demo_snapshot_slice
  = Some [([1; 42], list_byte_of_string "a/b")] ∧
  (bucket demo_snapshot 1 43 ≫= entry demo_snapshot)
  = Some ([1; 42], list_byte_of_string "a/b") ∧
  ∃ σ2,
    assign (cluster.Ssid demo_snapshot_element) 0 44 demo_snapshot = Ok (tt, σ2) ∧
    (bucket σ2 1 43 ≫= entry σ2) = Some ([44; 42], list_byte_of_string "a/b") ∧
    (bucket σ2 1 43 ≫= λ c, key_of σ2 (subCounter.Ssid c)) = Some 6 ∧
    snapshot σ2 demo_snapshot_slice = Some [([44; 42], list_byte_of_string "a/b")].
Proof.
  split; [vm_compute; reflexivity|]. split; [vm_compute; reflexivity|].
  split; [vm_compute; reflexivity|]. split; [vm_compute; reflexivity|].
  exists (set_words <[1%positive := [44; 42]]> demo_snapshot).
  split_and!; vm_compute; reflexivity.
Qed.

(** ** The invariant of the registry *)

Lemma NewSubscriptionCounters_inv σ0 s σ1 :
  NewSubscriptionCounters σ0 = Ok (s, σ1) → registry_inv 0 σ1 s.
Proof.
  intros [= <- <-]. exists ∅. split_and!.
  - by rewrite /= lookup_insert_eq.
  - by intros k p ?%lookup_empty_Some.
  - by intros k k' p ?%lookup_empty_Some.
Qed.

Lemma bucket_registry_inv hi σ s key c :
  registry_inv hi σ s → bucket σ s key = Some c → 1 ≤ subCounter.Counter c ≤ hi.
Proof.
  intros (t & Ht & Hc & _). rewrite /bucket Ht /=.
  destruct (t !! key) as [p|] eqn:Hp; [|done]. simpl. intros Hb.
  destruct (Hc _ _ Hp) as (c' & Hc' & Hr). by replace c with c' by congruence.
Qed.

Lemma Increment_inv_step w s ssid channel σ u σ' hi hi' :
  1 ≤ hi' ≤ MaxInt w →
  hi ≤ hi' →
  registry_inv hi σ s →
  (∀ key c, GetHashCode ssid σ = Ok (key, σ) → bucket σ s key = Some c →
     subCounter.Counter c < hi') →
  Increment w s ssid channel σ = Ok (u, σ') →
  registry_inv hi' σ' s.
Proof.
  intros Hhi Hle (t & Ht & Hc & Hinj) Hroom (x & l & t' & Hv & Ht' & H)%Increment_inv.
  assert (t' = t) as -> by congruence.
  pose proof (MinInt_neg w) as Hmin.
  destruct (t !! foldl Z.lxor x l) as [p|] eqn:Hp.
  - destruct H as (c & Hpc & ->).
    destruct (Hc _ _ Hp) as (c0 & Hc0 & Hrange).
    assert (c0 = c) as -> by congruence.
    assert (subCounter.Counter c < hi') as Hlt.
    { apply (Hroom (foldl Z.lxor x l)); [by apply GetHashCode_view|].
      by rewrite /bucket Ht /= Hp. }
    exists t. split_and!; [done| |done].
    intros k p' Hp'. destruct (decide (p' = p)) as [->|Hne].
    + eexists. split; [by rewrite /= lookup_insert_eq|].
      rewrite /= wrapInt_small; lia.
    + destruct (Hc _ _ Hp') as (c' & Hc' & Hr').
      exists c'. split; [by rewrite /= lookup_insert_ne|lia].
  - subst σ'. set (pf := fresh (dom (meters σ))).
    assert (∀ k p', t !! k = Some p' → p' ≠ pf) as Hfresh.
    { intros k p' Hp' ->. destruct (Hc _ _ Hp') as (c' & Hc' & _).
      apply (is_fresh (dom (meters σ))). apply elem_of_dom. by exists c'. }
    exists (<[foldl Z.lxor x l := pf]> t). split_and!.
    + by rewrite /= lookup_insert_eq.
    + intros k p' [[<- <-]|[Hk Hp']]%lookup_insert_Some.
      * eexists. split; [by rewrite /= lookup_insert_eq|]. simpl. lia.
      * destruct (Hc _ _ Hp') as (c' & Hc' & Hr').
        exists c'. split; [|lia].
        rewrite /= lookup_insert_ne //. apply not_eq_sym. by eapply Hfresh.
    + intros k k' p' [[<- <-]|[Hk Hp1]]%lookup_insert_Some
                     [[<- Hpf]|[Hk' Hp2]]%lookup_insert_Some.
      * done.
      * by destruct (Hfresh _ _ Hp2).
      * subst p'. by destruct (Hfresh _ _ Hp1).
      * by eapply Hinj.
Qed.

Lemma Increment_inv_preserved w s ssid channel σ u σ' hi :
  0 ≤ hi < MaxInt w →
  registry_inv hi σ s →
  Increment w s ssid channel σ = Ok (u, σ') →
  registry_inv (hi + 1) σ' s.
Proof.
  intros Hhi Hinv. apply (Increment_inv_step w s ssid channel σ u σ' hi); [lia..|done|].
  intros key c _ Hb. pose proof (bucket_registry_inv _ _ _ _ _ Hinv Hb). lia.
Qed.

Lemma Decrement_inv_preserved w s ssid σ u σ' hi :
  hi ≤ MaxInt w →
  registry_inv hi σ s →
  Decrement w s ssid σ = Ok (u, σ') →
  registry_inv hi σ' s.
Proof.
  intros Hhi (t & Ht & Hc & Hinj) (x & l & t' & Hv & Ht' & H)%Decrement_inv.
  assert (t' = t) as -> by congruence.
  pose proof (MinInt_neg w) as Hmin.
  destruct (t !! foldl Z.lxor x l) as [p|] eqn:Hp.
  - destruct H as (c & Hpc & ->).
    destruct (Hc _ _ Hp) as (c0 & Hc0 & Hrange).
    assert (c0 = c) as -> by congruence.
    rewrite wrapInt_small; [lia|].
    case_decide as Hn.
    + exists (delete (foldl Z.lxor x l) t). split_and!.
      * by rewrite /= lookup_insert_eq.
      * intros k p' [Hk Hp']%lookup_delete_Some.
        destruct (Hc _ _ Hp') as (c' & Hc' & Hr').
        exists c'. split; [|done].
        rewrite /= lookup_insert_ne //. intros <-. apply Hk. by eapply Hinj.
      * intros k k' p' [_ Hp1]%lookup_delete_Some [_ Hp2]%lookup_delete_Some.
        by eapply Hinj.
    + exists t. split_and!; [done| |done].
      intros k p' Hp'. destruct (decide (p' = p)) as [->|Hne].
      * eexists. split; [by rewrite /= lookup_insert_eq|]. simpl. lia.
      * destruct (Hc _ _ Hp') as (c' & Hc' & Hr').
        exists c'. split; [by rewrite /= lookup_insert_ne|lia].
  - subst σ'. by exists t.
Qed.

Lemma All_inv_preserved s σ a σ' hi :
  registry_inv hi σ s → All s σ = Ok (a, σ') → registry_inv hi σ' s.
Proof.
  intros (t & Ht & Hc & Hinj) (_ & Hm & Htb)%All_frame.
  exists t. rewrite Hm Htb. by split_and!.
Qed.

Lemma calls_inv_preserved w s cs σ σ' hi :
  0 ≤ hi →
  hi + Z.of_nat (increments cs) ≤ MaxInt w →
  registry_inv hi σ s →
  calls w s cs σ = Ok (tt, σ') →
  registry_inv (hi + Z.of_nat (increments cs)) σ' s.
Proof.
  revert σ hi. induction cs as [|c cs IH]; intros σ hi Hhi Hmax Hinv; simpl.
  - intros [= <-]. by rewrite Z.add_0_r.
  - intros (u & σ1 & Hc & Hcs)%bind_inv.
    destruct c as [ssid channel|ssid|]; simpl in Hc.
    + cbn [increments] in *. rewrite Nat2Z.inj_succ in Hmax |- *.
      replace (hi + Z.succ (Z.of_nat (increments cs)))
        with ((hi + 1) + Z.of_nat (increments cs)) by lia.
      apply (IH σ1); [lia|lia| |done].
      eapply Increment_inv_preserved; [|done..]. lia.
    + apply (IH σ1); [done..| |done].
      eapply Decrement_inv_preserved; [|done..]. simpl in Hmax. lia.
    + apply bind_inv in Hc as (a & σa & Ha & [= _ <-]).
      apply (IH σa); [done..| |done].
      by eapply All_inv_preserved.
Qed.

Lemma never_at_MaxInt_cons w s σ c cs u σ' :
  never_at_MaxInt w s σ (c :: cs) →
  call w s c σ = Ok (u, σ') →
  never_at_MaxInt w s σ' cs.
Proof.
  intros Hnever Hc cs1 ssid channel cs2 σ'' key c0 -> Hcs1.
  apply (Hnever (c :: cs1) ssid channel cs2); [done|].
  simpl. by rewrite (bind_Ok _ _ _ _ _ Hc).
Qed.

Lemma calls_inv_bounded w s cs σ σ' :
  registry_inv (MaxInt w) σ s →
  never_at_MaxInt w s σ cs →
  calls w s cs σ = Ok (tt, σ') →
  registry_inv (MaxInt w) σ' s.
Proof.
  pose proof (MaxInt_pos w) as Hmax.
  revert σ. induction cs as [|c cs IH]; intros σ Hinv Hnever; simpl.
  - by intros [= <-].
  - intros (u & σ1 & Hc & Hcs)%bind_inv.
    apply (IH σ1); [|by eapply never_at_MaxInt_cons|done].
    destruct c as [ssid channel|ssid|]; simpl in Hc.
    + eapply (Increment_inv_step w s ssid channel σ u σ1 (MaxInt w)); [lia..|done| |done].
      intros key c0 Hkey Hb. by eapply (Hnever [] ssid channel cs).
    + by eapply Decrement_inv_preserved.
    + apply bind_inv in Hc as (a & σa & Ha & [= _ <-]).
      by eapply All_inv_preserved.
Qed.

Lemma increments_app cs1 cs2 :
  increments (cs1 ++ cs2) = (increments cs1 + increments cs2)%nat.
Proof.
  induction cs1 as [|[| |] cs1 IH]; simpl; [done|by rewrite IH..].
Qed.

(** A sequence with at most [MaxInt] Increments never finds a bucket at
    the count [MaxInt]: a count is at most the number of Increments so far. *)
Lemma few_increments_never_at_MaxInt w σ0 s σ1 cs :
  NewSubscriptionCounters σ0 = Ok (s, σ1) →
  Z.of_nat (increments cs) ≤ MaxInt w →
  never_at_MaxInt w s σ1 cs.
Proof.
  intros Hnew Hmax cs1 ssid channel cs2 σ' key c -> Hcs1 _ Hb.
  rewrite increments_app /= in Hmax.
  pose proof (calls_inv_preserved w s cs1 σ1 σ' 0) as Hinv.
  destruct (bucket_registry_inv _ _ _ _ _
              (Hinv ltac:(lia) ltac:(lia) (NewSubscriptionCounters_inv _ _ _ Hnew) Hcs1) Hb).
  lia.
Qed.

(** C5, as amended: starting from NewSubscriptionCounters, after any
    sequence of Increment, Decrement and All calls that return and in which
    no Increment finds its bucket at the count MaxInt, every counter the
    registry retains is at least 1. *)
Theorem retained_counters_positive w σ0 s σ1 cs σ :
  NewSubscriptionCounters σ0 = Ok (s, σ1) →
  never_at_MaxInt w s σ1 cs →
  calls w s cs σ1 = Ok (tt, σ) →
  counters_positive σ s.
Proof.
  intros Hnew Hnever Hcalls.
  destruct (calls_inv_bounded w s cs σ1 σ) as (t & Ht & Hc & _); [|done..|].
  { pose proof (MaxInt_pos w).
    destruct (NewSubscriptionCounters_inv _ _ _ Hnew) as (t & Ht & Hc & Hinj).
    exists t. split_and!; [done| |done].
    intros k p Hp. destruct (Hc _ _ Hp) as (c & ? & ?). exists c. split; [done|lia]. }
  intros t' k p Ht' Hp. assert (t' = t) as -> by congruence.
  destruct (Hc _ _ Hp) as (c & ? & ?). exists c. split; [done|lia].
Qed.

Lemma retained_counters_positive_witness :
  ∃ σ1 σ,
    NewSubscriptionCounters demo = Ok (2%positive, σ1) ∧
    never_at_MaxInt Int64 2 σ1
      [CallIncrement ssid_1_42 "a/b"; CallIncrement ssid_5_7_9 "c/d";
       CallIncrement ssid_1_42 "a/b"; CallDecrement ssid_5_9_7;
       CallAll; CallDecrement ssid_1_42] ∧
    calls Int64 2 [CallIncrement ssid_1_42 "a/b"; CallIncrement ssid_5_7_9 "c/d";
                   CallIncrement ssid_1_42 "a/b"; CallDecrement ssid_5_9_7;
                   CallAll; CallDecrement ssid_1_42] σ1 = Ok (tt, σ) ∧
    bucket σ 2 43 = Some (subCounter.mk ssid_1_42 "a/b" 1) ∧
    bucket σ 2 11 = None ∧
    counters_positive σ 2.
Proof.
  do 2 eexists.
  assert (never_at_MaxInt Int64 2 (set_tables <[2%positive := ∅]> demo)
            [CallIncrement ssid_1_42 "a/b"; CallIncrement ssid_5_7_9 "c/d";
             CallIncrement ssid_1_42 "a/b"; CallDecrement ssid_5_9_7;
             CallAll; CallDecrement ssid_1_42]) as Hnever.
  { apply (few_increments_never_at_MaxInt Int64 demo); [reflexivity|].
    vm_compute. discriminate. }
  split; [reflexivity|]. split; [exact Hnever|].
  split; [reflexivity|]. split; [reflexivity|]. split; [reflexivity|].
  eapply (retained_counters_positive Int64 demo 2%positive _
            [CallIncrement ssid_1_42 "a/b"; CallIncrement ssid_5_7_9 "c/d";
             CallIncrement ssid_1_42 "a/b"; CallDecrement ssid_5_9_7;
             CallAll; CallDecrement ssid_1_42]);
    [reflexivity|exact Hnever|reflexivity].
Defined.

(** After [MaxInt + 1] Increments of one SSID the counter has wrapped
    around to [MinInt]. *)
Lemma Increments_wrap w σ s t ssid x l channel :
  view (words σ) ssid = Some (x :: l) →
  tables σ !! s = Some t →
  t !! foldl Z.lxor x l = None →
  calls w s (replicate (Z.to_nat (MaxInt w + 1)) (CallIncrement ssid channel)) σ
  = Ok (tt, filed σ s t (foldl Z.lxor x l) (fresh (dom (meters σ)))
              (subCounter.mk ssid channel (MinInt w))).
Proof.
  intros Hv Ht Hkey. pose proof (MaxInt_pos w) as Hmax.
  replace (Z.to_nat (MaxInt w + 1)) with (S (Z.to_nat (MaxInt w))) by lia.
  rewrite (Increments_from_absent w σ s t ssid x l channel Hv Ht Hkey).
  replace (1 + Z.of_nat (Z.to_nat (MaxInt w))) with (MaxInt w + 1) by lia.
  by rewrite wrapInt_after_MaxInt.
Qed.

(** C5, as stated, fails once a count leaves the range of [int]: after
    [MaxInt + 1] Increments of one SSID on a new registry the bucket is
    retained with the count [MinInt], on 64-bit and on 32-bit targets
    alike. *)
Lemma counter_overflow_counterexample :
  (∃ σ1 σ,
     NewSubscriptionCounters demo = Ok (2%positive, σ1) ∧
     calls Int64 2
       (replicate (Z.to_nat (MaxInt Int64 + 1)) (CallIncrement ssid_1_42 "a/b")) σ1
     = Ok (tt, σ) ∧
     bucket σ 2 43 = Some (subCounter.mk ssid_1_42 "a/b" (-9223372036854775808)) ∧
     ¬ counters_positive σ 2) ∧
  (∃ σ1 σ,
     NewSubscriptionCounters demo = Ok (2%positive, σ1) ∧
     calls Int32 2
       (replicate (Z.to_nat (MaxInt Int32 + 1)) (CallIncrement ssid_1_42 "a/b")) σ1
     = Ok (tt, σ) ∧
     bucket σ 2 43 = Some (subCounter.mk ssid_1_42 "a/b" (-2147483648)) ∧
     ¬ counters_positive σ 2).
Proof.
  split.
  - do 2 eexists. split; [reflexivity|]. split.
    + by apply (Increments_wrap Int64 _ 2%positive ∅ ssid_1_42 1 [42] "a/b").
    + split; [reflexivity|].
      intros H.
      destruct (H {[ 43 := 1%positive ]} 43 1%positive eq_refl (lookup_singleton_eq _ _))
        as (c & [= <-] & Hle). by vm_compute in Hle.
  - do 2 eexists. split; [reflexivity|]. split.
    + by apply (Increments_wrap Int32 _ 2%positive ∅ ssid_1_42 1 [42] "a/b").
    + split; [reflexivity|].
      intros H.
      destruct (H {[ 43 := 1%positive ]} 43 1%positive eq_refl (lookup_singleton_eq _ _))
        as (c & [= <-] & Hle). by vm_compute in Hle.
Qed.

(** * Further properties *)

(** X1: starting from NewSubscriptionCounters, after any sequence of calls
    that return, of which at most MaxInt are Increments, every counter the
    registry retains is at least 1 and at most the number of Increments. *)
Theorem few_increments_counters_positive w σ0 s σ1 cs σ :
  NewSubscriptionCounters σ0 = Ok (s, σ1) →
  Z.of_nat (increments cs) ≤ MaxInt w →
  calls w s cs σ1 = Ok (tt, σ) →
  counters_positive σ s ∧
  ∀ key c, bucket σ s key = Some c →
    1 ≤ subCounter.Counter c ≤ Z.of_nat (increments cs).
Proof.
  intros Hnew Hmax Hcalls.
  pose proof (calls_inv_preserved w s cs σ1 σ 0 ltac:(lia) ltac:(lia)
                (NewSubscriptionCounters_inv _ _ _ Hnew) Hcalls) as Hinv.
  rewrite Z.add_0_l in Hinv. split.
  - destruct Hinv as (t & Ht & Hc & _).
    intros t' k p Ht' Hp. assert (t' = t) as -> by congruence.
    destruct (Hc _ _ Hp) as (c & ? & ?). exists c. split; [done|lia].
  - intros key c Hb. by eapply bucket_registry_inv.
Qed.

Lemma few_increments_counters_positive_witness :
  ∃ σ1 σ,
    NewSubscriptionCounters demo = Ok (2%positive, σ1) ∧
    Z.of_nat (increments [CallIncrement ssid_1_42 "a/b"; CallIncrement ssid_1_42 "a/b";
                          CallDecrement ssid_1_42]) ≤ MaxInt Int32 ∧
    calls Int32 2 [CallIncrement ssid_1_42 "a/b"; CallIncrement ssid_1_42 "a/b";
                   CallDecrement ssid_1_42] σ1 = Ok (tt, σ) ∧
    counters_positive σ 2.
Proof.
  do 2 eexists.
  assert (Z.of_nat 2 ≤ MaxInt Int32) as Hmax by (vm_compute; discriminate).
  split; [reflexivity|]. split; [exact Hmax|]. split; [reflexivity|].
  eapply (proj1 (few_increments_counters_positive Int32 demo 2%positive _
                   [CallIncrement ssid_1_42 "a/b"; CallIncrement ssid_1_42 "a/b";
                    CallDecrement ssid_1_42] _ eq_refl Hmax eq_refl)).
Defined.

(** X2: a Decrement that finds a bucket with a count between 2 and MaxInt
    leaves the bucket in the registry with the count one less and with the
    SSID and the channel it had; the map of the registry is as it was. *)
Theorem Decrement_retains_above_1 w σ s t ssid x l p c :
  view (words σ) ssid = Some (x :: l) →
  tables σ !! s = Some t →
  t !! foldl Z.lxor x l = Some p →
  meters σ !! p = Some c →
  2 ≤ subCounter.Counter c ≤ MaxInt w →
  ∃ σ',
    Decrement w s ssid σ = Ok (tt, σ') ∧
    tables σ' !! s = Some t ∧
    bucket σ' s (foldl Z.lxor x l)
    = Some (subCounter.mk (subCounter.Ssid c) (subCounter.Channel c)
              (subCounter.Counter c - 1)).
Proof.
  intros Hv Ht Hp Hc Hr. pose proof (MinInt_neg w).
  assert (wrapInt w (subCounter.Counter c - 1) = subCounter.Counter c - 1) as Hw.
  { apply wrapInt_small. lia. }
  eexists. split_and!.
  - eapply Decrement_retained; [done..|lia].
  - done.
  - by rewrite /bucket /= Ht /= Hp /= lookup_insert_eq /with_count Hw.
Qed.

Lemma Decrement_retains_above_1_witness :
  ∃ σ',
    calls Int64 1 [CallIncrement ssid_1_42 "a/b"; CallIncrement ssid_1_42 "a/b"] demo
    = Ok (tt, filed demo 1 ∅ 43 1 (subCounter.mk ssid_1_42 "a/b" 2)) ∧
    (2 ≤ 2 ≤ MaxInt Int64) ∧
    Decrement Int64 1 ssid_1_42 (filed demo 1 ∅ 43 1 (subCounter.mk ssid_1_42 "a/b" 2))
    = Ok (tt, σ') ∧
    bucket σ' 1 43 = Some (subCounter.mk ssid_1_42 "a/b" 1).
Proof.
  assert (2 ≤ 2 ≤ MaxInt Int64) as Hr by (split; vm_compute; discriminate).
  destruct (Decrement_retains_above_1 Int64
              (filed demo 1 ∅ 43 1 (subCounter.mk ssid_1_42 "a/b" 2))
              1 {[ 43 := 1%positive ]} ssid_1_42 1 [42] 1
              (subCounter.mk ssid_1_42 "a/b" 2)
              eq_refl eq_refl (lookup_singleton_eq _ _) eq_refl Hr)
    as (σ' & Hd & _ & Hb).
  exists σ'. split; [reflexivity|]. split; [exact Hr|]. split; [exact Hd|exact Hb].
Defined.

(** The scenario of the specification.  On a new registry, Increment
    of the SSID [1 42] with the channel a/b makes All return exactly one
    element, with the elements 1, 42 and the bytes of a/b; a second
    Increment and one Decrement leave All returning that element; one more
    Decrement leaves All returning nothing; and the first snapshot still
    reads as it did. *)
Theorem scenario_of_the_specification :
  value_of (scenario Int64 demo)
  = Some (Some [([1; 42], list_byte_of_string "a/b")],
          Some [([1; 42], list_byte_of_string "a/b")],
          Some [],
          Some [([1; 42], list_byte_of_string "a/b")]) ∧
  value_of (scenario Int32 demo) = value_of (scenario Int64 demo).
Proof. split; vm_compute; reflexivity. Qed.

(** ** What one call does to the buckets *)

Lemma key_of_view σ ssid x l :
  view (words σ) ssid = Some (x :: l) → key_of σ ssid = Some (foldl Z.lxor x l).
Proof. rewrite /key_of. by intros ->. Qed.

Lemma key_of_inv σ ssid key :
  key_of σ ssid = Some key →
  ∃ x l, view (words σ) ssid = Some (x :: l) ∧ key = foldl Z.lxor x l.
Proof.
  rewrite /key_of. destruct (view (words σ) ssid) as [[|x l]|]; [done| |done].
  intros [= <-]. by exists x, l.
Qed.

Lemma key_of_words σ σ' ssid : words σ' = words σ → key_of σ' ssid = key_of σ ssid.
Proof. rewrite /key_of. by intros ->. Qed.

(** Increment replaces the bucket under the hash of its SSID, by a new one
    when there was none, and touches no other bucket. *)
Lemma Increment_buckets w s ssid channel σ u σ' :
  registry_ok σ s →
  Increment w s ssid channel σ = Ok (u, σ') →
  ∃ key, key_of σ ssid = Some key ∧
    bucket σ' s key
    = Some (match bucket σ s key with
            | Some c => with_count c (wrapInt w (subCounter.Counter c + 1))
            | None => subCounter.mk ssid channel 1
            end) ∧
    (∀ k, k ≠ key → bucket σ' s k = bucket σ s k) ∧
    registry_ok σ' s ∧ words σ' = words σ.
Proof.
  intros (t & Ht & Hwf & Hinj) (x & l & t' & Hv & Ht' & H)%Increment_inv.
  assert (t' = t) as -> by congruence.
  exists (foldl Z.lxor x l). split; [by apply key_of_view|].
  destruct (t !! foldl Z.lxor x l) as [p|] eqn:Hp.
  - destruct H as (c & Hc & ->). split_and!.
    + by rewrite /bucket /= Ht /= Hp /= lookup_insert_eq Hc.
    + intros k Hk. rewrite /bucket /= Ht /=.
      destruct (t !! k) as [p'|] eqn:Hp'; [|done]. simpl.
      rewrite lookup_insert_ne //. intros ->. apply Hk. by eapply Hinj.
    + exists t. split_and!; [done| |done].
      intros k p' Hp'. destruct (Hwf _ _ Hp') as (c' & Hc' & Hv').
      destruct (decide (p' = p)) as [->|Hne].
      * eexists. split; [by rewrite /= lookup_insert_eq|].
        simpl. by replace c with c' by congruence.
      * exists c'. by rewrite /= lookup_insert_ne.
    + done.
  - subst σ'. set (pf := fresh (dom (meters σ))).
    assert (∀ k p', t !! k = Some p' → p' ≠ pf) as Hfresh.
    { intros k p' Hp' ->. destruct (Hwf _ _ Hp') as (c' & Hc' & _).
      apply (is_fresh (dom (meters σ))). apply elem_of_dom. by exists c'. }
    split_and!.
    + rewrite /bucket /= Ht /= Hp /=.
      by rewrite lookup_insert_eq /= lookup_insert_eq /= lookup_insert_eq.
    + intros k Hk. rewrite /bucket /= lookup_insert_eq Ht /= lookup_insert_ne //.
      destruct (t !! k) as [p'|] eqn:Hp'; [|done]. simpl.
      rewrite lookup_insert_ne //. apply not_eq_sym. by eapply Hfresh.
    + exists (<[foldl Z.lxor x l := pf]> t). split_and!.
      * by rewrite /= lookup_insert_eq.
      * intros k p' [[<- <-]|[Hk Hp']]%lookup_insert_Some.
        -- eexists. split; [by rewrite /= lookup_insert_eq|]. simpl. eauto.
        -- destruct (Hwf _ _ Hp') as (c' & Hc' & Hv').
           exists c'. split; [|done].
           rewrite /= lookup_insert_ne //. apply not_eq_sym. by eapply Hfresh.
      * intros k k' p' [[<- <-]|[Hk Hp1]]%lookup_insert_Some
                       [[<- Hpf]|[Hk' Hp2]]%lookup_insert_Some.
        -- done.
        -- by destruct (Hfresh _ _ Hp2).
        -- subst p'. by destruct (Hfresh _ _ Hp1).
        -- by eapply Hinj.
    + done.
Qed.

(** Decrement replaces the bucket under the hash of its SSID, removing it
    when the new count is not above 0, and touches no other bucket. *)
Lemma Decrement_buckets w s ssid σ u σ' :
  registry_ok σ s →
  Decrement w s ssid σ = Ok (u, σ') →
  ∃ key, key_of σ ssid = Some key ∧
    bucket σ' s key
    = match bucket σ s key with
      | Some c =>
          if decide (wrapInt w (subCounter.Counter c - 1) ≤ 0) then None
          else Some (with_count c (wrapInt w (subCounter.Counter c - 1)))
      | None => None
      end ∧
    (∀ k, k ≠ key → bucket σ' s k = bucket σ s k) ∧
    registry_ok σ' s ∧ words σ' = words σ.
Proof.
  intros (t & Ht & Hwf & Hinj) (x & l & t' & Hv & Ht' & H)%Decrement_inv.
  assert (t' = t) as -> by congruence.
  exists (foldl Z.lxor x l). split; [by apply key_of_view|].
  destruct (t !! foldl Z.lxor x l) as [p|] eqn:Hp.
  - destruct H as (c & Hc & ->).
    assert (bucket σ s (foldl Z.lxor x l) = Some c) as Hb
      by by rewrite /bucket Ht /= Hp.
    rewrite Hb. case_decide as Hn.
    + split_and!.
      * by rewrite /bucket /= lookup_insert_eq /= lookup_delete_eq.
      * intros k Hk. rewrite /bucket /= lookup_insert_eq Ht /= lookup_delete_ne //.
        destruct (t !! k) as [p'|] eqn:Hp'; [|done]. simpl.
        rewrite lookup_insert_ne //. intros ->. apply Hk. by eapply Hinj.
      * exists (delete (foldl Z.lxor x l) t). split_and!.
        -- by rewrite /= lookup_insert_eq.
        -- intros k p' [Hk Hp']%lookup_delete_Some.
           destruct (Hwf _ _ Hp') as (c' & Hc' & Hv').
           exists c'. split; [|done].
           rewrite /= lookup_insert_ne //. intros <-. apply Hk. by eapply Hinj.
        -- intros k k' p' [_ Hp1]%lookup_delete_Some [_ Hp2]%lookup_delete_Some.
           by eapply Hinj.
      * done.
    + split_and!.
      * by rewrite /bucket /= Ht /= Hp /= lookup_insert_eq.
      * intros k Hk. rewrite /bucket /= Ht /=.
        destruct (t !! k) as [p'|] eqn:Hp'; [|done]. simpl.
        rewrite lookup_insert_ne //. intros ->. apply Hk. by eapply Hinj.
      * exists t. split_and!; [done| |done].
        intros k p' Hp'. destruct (Hwf _ _ Hp') as (c' & Hc' & Hv').
        destruct (decide (p' = p)) as [->|Hne].
        -- eexists. split; [by rewrite /= lookup_insert_eq|].
           simpl. by replace c with c' by congruence.
        -- exists c'. by rewrite /= lookup_insert_ne.
      * done.
  - subst σ'. split_and!; [|done| |done].
    + by rewrite /bucket Ht /= Hp.
    + by exists t.
Qed.

(** All changes no bucket of any registry. *)
Lemma All_buckets s σ a σ' :
  All s σ = Ok (a, σ') →
  (∀ s0 k, bucket σ' s0 k = bucket σ s0 k) ∧
  (∀ s0, registry_ok σ s0 → registry_ok σ' s0) ∧ words σ' = words σ.
Proof.
  intros ((Hw & _ & _) & Hm & Ht)%All_frame. split_and!.
  - intros s0 k. by rewrite /bucket Hm Ht.
  - intros s0 (t & ? & ? & ?). exists t. rewrite Hm Ht Hw. by split_and!.
  - done.
Qed.

Lemma call_valid_words σ σ' c : words σ' = words σ → call_valid σ c → call_valid σ' c.
Proof. intros Hw. destruct c; simpl; by rewrite ?(key_of_words _ _ _ Hw). Qed.

Lemma key_of_GetHashCode σ ssid key :
  key_of σ ssid = Some key → GetHashCode ssid σ = Ok (key, σ).
Proof. intros (x & l & Hv & ->)%key_of_inv. by apply GetHashCode_view. Qed.

(** ** Calls on a well-formed registry return *)

Lemma call_returns w s c σ :
  registry_ok σ s → call_valid σ c → ∃ σ', call w s c σ = Ok (tt, σ').
Proof.
  intros (t & Ht & Hwf & Hinj) Hvalid.
  destruct c as [ssid channel|ssid|]; simpl in *.
  - destruct Hvalid as [key (x & l & Hv & ->)%key_of_inv].
    destruct (t !! foldl Z.lxor x l) as [p|] eqn:Hp.
    + destruct (Hwf _ _ Hp) as (c & Hc & _). eexists.
      by eapply Increment_present.
    + eexists. by eapply Increment_absent.
  - destruct Hvalid as [key (x & l & Hv & ->)%key_of_inv].
    destruct (t !! foldl Z.lxor x l) as [p|] eqn:Hp.
    + destruct (Hwf _ _ Hp) as (c & Hc & _).
      destruct (decide (wrapInt w (subCounter.Counter c - 1) ≤ 0)).
      * eexists. by eapply Decrement_removed.
      * eexists. eapply Decrement_retained; [done..|lia].
    + eexists. by eapply Decrement_absent.
  - destruct (All_ok σ s t Ht Hwf) as (a & σ' & X & Ha & _).
    exists σ'. by rewrite (bind_Ok _ _ _ _ _ Ha).
Qed.

Lemma call_registry_ok w s c σ u σ' :
  registry_ok σ s → call w s c σ = Ok (u, σ') →
  registry_ok σ' s ∧ words σ' = words σ.
Proof.
  intros Hok Hc. destruct c as [ssid channel|ssid|]; simpl in Hc.
  - destruct (Increment_buckets _ _ _ _ _ _ _ Hok Hc) as (? & _ & _ & _ & ? & ?).
    done.
  - destruct (Decrement_buckets _ _ _ _ _ _ Hok Hc) as (? & _ & _ & _ & ? & ?).
    done.
  - apply bind_inv in Hc as (a & σa & Ha & [= _ <-]).
    destruct (All_buckets _ _ _ _ Ha) as (_ & ? & ?). auto.
Qed.

Lemma calls_registry_ok w s cs σ σ' :
  registry_ok σ s → calls w s cs σ = Ok (tt, σ') →
  registry_ok σ' s ∧ words σ' = words σ.
Proof.
  revert σ. induction cs as [|c cs IH]; intros σ Hok; simpl.
  - by intros [= <-].
  - intros (u & σ1 & Hc & Hcs)%bind_inv.
    destruct (call_registry_ok _ _ _ _ _ _ Hok Hc) as [Hok1 Hw1].
    destruct (IH _ Hok1 Hcs) as [? Hw]. split; [done|]. by rewrite Hw.
Qed.

Lemma NewSubscriptionCounters_ok σ0 s σ1 :
  NewSubscriptionCounters σ0 = Ok (s, σ1) →
  registry_ok σ1 s ∧ words σ1 = words σ0 ∧ ∀ k, bucket σ1 s k = None.
Proof.
  intros [= <- <-]. split_and!.
  - exists ∅. split_and!.
    + by rewrite /= lookup_insert_eq.
    + by intros k p ?%lookup_empty_Some.
    + by intros k k' p ?%lookup_empty_Some.
  - done.
  - intros k. by rewrite /bucket /= lookup_insert_eq.
Qed.

(** ** Buckets stay under the hash of their SSID *)

Lemma call_keyed_by_hash w s c σ u σ' :
  registry_ok σ s → keyed_by_hash σ s → call w s c σ = Ok (u, σ') →
  keyed_by_hash σ' s.
Proof.
  intros Hok Hkeyed Hc. destruct c as [ssid channel|ssid|]; simpl in Hc.
  - destruct (Increment_buckets _ _ _ _ _ _ _ Hok Hc)
      as (key & Hkey & Hb & Hother & _ & Hw).
    intros k c. rewrite Hw. destruct (decide (k = key)) as [->|Hne].
    + rewrite Hb. intros [= <-].
      destruct (bucket σ s key) as [c0|] eqn:Hb0; simpl.
      * by apply Hkeyed.
      * apply key_of_inv in Hkey as (x & l & Hv & ->). eauto.
    + rewrite Hother //. apply Hkeyed.
  - destruct (Decrement_buckets _ _ _ _ _ _ Hok Hc)
      as (key & Hkey & Hb & Hother & _ & Hw).
    intros k c. rewrite Hw. destruct (decide (k = key)) as [->|Hne].
    + rewrite Hb. destruct (bucket σ s key) as [c0|] eqn:Hb0; [|done].
      case_decide; [done|]. intros [= <-]. simpl. by apply Hkeyed.
    + rewrite Hother //. apply Hkeyed.
  - apply bind_inv in Hc as (a & σa & Ha & [= _ <-]).
    destruct (All_buckets _ _ _ _ Ha) as (Hb & _ & Hw).
    intros k c. rewrite Hb Hw. apply Hkeyed.
Qed.

(** ** Counts *)

Lemma call_count w s c σ u σ' σ0 f :
  words σ = words σ0 →
  registry_ok σ s → registry_inv (MaxInt w) σ s →
  never_at_MaxInt w s σ [c] →
  (∀ k, count σ s k = f k) →
  call w s c σ = Ok (u, σ') →
  ∀ k, count σ' s k = tally_call σ0 f c k.
Proof.
  intros Hw0 Hok Hinv Hnever Hf Hc k.
  pose proof (MaxInt_pos w) as Hmax. pose proof (MinInt_neg w) as Hmin.
  destruct c as [ssid channel|ssid|]; simpl in Hc |- *.
  - destruct (Increment_buckets _ _ _ _ _ _ _ Hok Hc)
      as (key & Hkey & Hb & Hother & _ & _).
    rewrite (key_of_words σ σ0 ssid (eq_sym Hw0)) Hkey.
    case_decide as Hk.
    + injection Hk as <-. rewrite -Hf /count Hb.
      destruct (bucket σ s key) as [c0|] eqn:Hb0; simpl; [|done].
      pose proof (bucket_registry_inv _ _ _ _ _ Hinv Hb0).
      pose proof (Hnever [] ssid channel [] σ key c0 eq_refl eq_refl
                    (key_of_GetHashCode _ _ _ Hkey) Hb0).
      apply wrapInt_small. lia.
    + rewrite -Hf /count Hother //. congruence.
  - destruct (Decrement_buckets _ _ _ _ _ _ Hok Hc)
      as (key & Hkey & Hb & Hother & _ & _).
    rewrite (key_of_words σ σ0 ssid (eq_sym Hw0)) Hkey.
    case_decide as Hk.
    + injection Hk as <-. rewrite -Hf /count Hb.
      destruct (bucket σ s key) as [c0|] eqn:Hb0; simpl; [|done].
      pose proof (bucket_registry_inv _ _ _ _ _ Hinv Hb0).
      rewrite wrapInt_small; [lia|].
      destruct (decide (subCounter.Counter c0 - 1 ≤ 0));
        rewrite /with_count; cbn [subCounter.Counter]; lia.
    + rewrite -Hf /count Hother //. congruence.
  - apply bind_inv in Hc as (a & σa & Ha & [= _ <-]).
    destruct (All_buckets _ _ _ _ Ha) as (Hb & _ & _).
    by rewrite /count Hb -Hf.
Qed.

Lemma never_at_MaxInt_head w s σ c cs :
  never_at_MaxInt w s σ (c :: cs) → never_at_MaxInt w s σ [c].
Proof.
  intros Hnever cs1 ssid channel cs2 σ' key c0 Heq Hcs1.
  destruct cs1 as [|c1 cs1]; simplify_eq/=.
  - by apply (Hnever [] ssid channel cs).
  - by destruct cs1.
Qed.

Lemma calls_count w s cs σ σ' σ0 f :
  words σ = words σ0 →
  registry_ok σ s → registry_inv (MaxInt w) σ s →
  never_at_MaxInt w s σ cs →
  (∀ k, count σ s k = f k) →
  calls w s cs σ = Ok (tt, σ') →
  ∀ k, count σ' s k = tally σ0 f cs k.
Proof.
  revert σ f. induction cs as [|c cs IH]; intros σ f Hw0 Hok Hinv Hnever Hf; simpl.
  - by intros [= <-].
  - intros (u & σ1 & Hc & Hcs)%bind_inv.
    destruct (call_registry_ok _ _ _ _ _ _ Hok Hc) as [Hok1 Hw1].
    apply (IH σ1); [congruence|done| | | |done].
    + apply (calls_inv_bounded w s [c] σ σ1);
        [done|by eapply never_at_MaxInt_head|].
      simpl. by rewrite (bind_Ok _ _ _ _ _ Hc).
    + by eapply never_at_MaxInt_cons.
    + eapply call_count; [done..|by eapply never_at_MaxInt_head|done|done].
Qed.

Lemma registry_inv_mono hi hi' σ s :
  hi ≤ hi' → registry_inv hi σ s → registry_inv hi' σ s.
Proof.
  intros Hle (t & Ht & Hc & Hinj). exists t. split_and!; [done| |done].
  intros k p Hp. destruct (Hc _ _ Hp) as (c & ? & ?). exists c. split; [done|lia].
Qed.

Lemma demo_ok : registry_ok demo 1.
Proof.
  exists ∅. split_and!; [done|..].
  - by intros k p ?%lookup_empty_Some.
  - by intros k k' p ?%lookup_empty_Some.
Qed.

Lemma demo_inv hi : registry_inv hi demo 1.
Proof.
  exists ∅. split_and!; [done|..].
  - by intros k p ?%lookup_empty_Some.
  - by intros k k' p ?%lookup_empty_Some.
Qed.

(** ** Sequences of calls on a registry *)

(** X3: on a well-formed registry every sequence of Increment, Decrement
    and All calls whose SSIDs are non-empty slices of the store returns: no
    call panics, whatever the counts are, and the registry is well formed
    afterwards. *)
Theorem valid_calls_return w s cs σ :
  registry_ok σ s →
  Forall (call_valid σ) cs →
  ∃ σ', calls w s cs σ = Ok (tt, σ') ∧ registry_ok σ' s.
Proof.
  intros Hok Hvalid. revert σ Hok Hvalid.
  induction cs as [|c cs IH]; intros σ Hok Hvalid; simpl.
  - by exists σ.
  - apply Forall_cons in Hvalid as [Hc Hcs].
    destruct (call_returns w s c σ Hok Hc) as (σ1 & H1).
    destruct (call_registry_ok _ _ _ _ _ _ Hok H1) as [Hok1 Hw1].
    destruct (IH σ1 Hok1) as (σ' & H' & Hok').
    { eapply Forall_impl; [done|]. intros c'. by apply call_valid_words. }
    exists σ'. by rewrite (bind_Ok _ _ _ _ _ H1).
Qed.

Lemma valid_calls_return_witness :
  registry_ok demo 1 ∧
  Forall (call_valid demo)
    [CallDecrement ssid_5_7_9; CallIncrement ssid_1_42 "a/b"; CallAll;
     CallIncrement ssid_5_9_7 "c/d"; CallDecrement ssid_1_42] ∧
  ∃ σ',
    calls Int32 1
      [CallDecrement ssid_5_7_9; CallIncrement ssid_1_42 "a/b"; CallAll;
       CallIncrement ssid_5_9_7 "c/d"; CallDecrement ssid_1_42] demo
    = Ok (tt, σ') ∧ registry_ok σ' 1.
Proof.
  assert (Forall (call_valid demo)
            [CallDecrement ssid_5_7_9; CallIncrement ssid_1_42 "a/b"; CallAll;
             CallIncrement ssid_5_9_7 "c/d"; CallDecrement ssid_1_42]) as Hvalid.
  { repeat constructor; eexists; vm_compute; reflexivity. }
  split; [exact demo_ok|]. split; [exact Hvalid|].
  exact (valid_calls_return Int32 1 _ demo demo_ok Hvalid).
Defined.

(** X4: starting from NewSubscriptionCounters, after any sequence of calls
    that return, every bucket of the registry is filed under the combined
    hash of the SSID it records, and that SSID is a non-empty slice of the
    store; so no two buckets record SSIDs with the same hash. *)
Theorem buckets_keyed_by_hash w σ0 s σ1 cs σ :
  NewSubscriptionCounters σ0 = Ok (s, σ1) →
  calls w s cs σ1 = Ok (tt, σ) →
  keyed_by_hash σ s ∧
  ∀ k k' c c', bucket σ s k = Some c → bucket σ s k' = Some c' →
    key_of σ (subCounter.Ssid c) = key_of σ (subCounter.Ssid c') → k = k'.
Proof.
  intros Hnew Hcalls.
  destruct (NewSubscriptionCounters_ok _ _ _ Hnew) as (Hok1 & _ & Hempty).
  assert (keyed_by_hash σ s) as Hkeyed.
  { assert (keyed_by_hash σ1 s) as Hk1.
    { intros k c. by rewrite Hempty. }
    clear Hnew Hempty. revert σ1 Hok1 Hk1 Hcalls.
    induction cs as [|c cs IH]; intros σ1 Hok1 Hk1; simpl.
    - by intros [= <-].
    - intros (u & σ2 & Hc & Hcs)%bind_inv.
      destruct (call_registry_ok _ _ _ _ _ _ Hok1 Hc) as [Hok2 _].
      apply (IH σ2); [done| |done].
      exact (call_keyed_by_hash _ _ _ _ _ _ Hok1 Hk1 Hc). }
  split; [done|].
  intros k k' c c' (x & l & Hv & <-)%Hkeyed (x' & l' & Hv' & <-)%Hkeyed.
  rewrite (key_of_view _ _ _ _ Hv) (key_of_view _ _ _ _ Hv'). by intros [= ->].
Qed.

Lemma buckets_keyed_by_hash_witness :
  ∃ σ1 σ,
    NewSubscriptionCounters demo = Ok (2%positive, σ1) ∧
    calls Int64 2 [CallIncrement ssid_1_42 "a/b"; CallIncrement ssid_5_9_7 "c/d";
                   CallIncrement ssid_5_7_9 "e/f"] σ1 = Ok (tt, σ) ∧
    bucket σ 2 11 = Some (subCounter.mk ssid_5_9_7 "c/d" 2) ∧
    keyed_by_hash σ 2.
Proof.
  do 2 eexists.
  split; [reflexivity|]. split; [reflexivity|]. split; [reflexivity|].
  exact (proj1 (buckets_keyed_by_hash Int64 demo 2%positive _
                  [CallIncrement ssid_1_42 "a/b"; CallIncrement ssid_5_9_7 "c/d";
                   CallIncrement ssid_5_7_9 "e/f"] _ eq_refl eq_refl)).
Defined.

(** X5: the counts refine a tally kept in unbounded integers.  Starting
    from NewSubscriptionCounters, after any sequence of calls that return and
    in which no Increment finds its bucket at MaxInt, the count under every
    key is what the sequence adds up to: 1 up for each Increment of an SSID
    with that hash, 1 down for each Decrement of one unless the count was 0,
    and a key has a bucket exactly when its tally is not 0. *)
Theorem counts_follow_tally w σ0 s σ1 cs σ :
  NewSubscriptionCounters σ0 = Ok (s, σ1) →
  never_at_MaxInt w s σ1 cs →
  calls w s cs σ1 = Ok (tt, σ) →
  ∀ k, count σ s k = tally σ0 (λ _, 0) cs k ∧
       (is_Some (bucket σ s k) ↔ tally σ0 (λ _, 0) cs k ≠ 0).
Proof.
  intros Hnew Hnever Hcalls k.
  destruct (NewSubscriptionCounters_ok _ _ _ Hnew) as (Hok1 & Hw1 & Hempty).
  pose proof (MaxInt_pos w) as Hmax.
  assert (registry_inv (MaxInt w) σ1 s) as Hinv1.
  { apply (registry_inv_mono 0); [lia|]. by eapply NewSubscriptionCounters_inv. }
  assert (count σ s k = tally σ0 (λ _, 0) cs k) as Hcount.
  { apply (calls_count w s cs σ1 σ); [done..| |done].
    intros k'. by rewrite /count Hempty. }
  split; [done|]. rewrite -Hcount /count.
  pose proof (calls_inv_bounded w s cs σ1 σ Hinv1 Hnever Hcalls) as Hinv.
  destruct (bucket σ s k) as [c|] eqn:Hb.
  - pose proof (bucket_registry_inv _ _ _ _ _ Hinv Hb). split; [lia|eauto].
  - split; [by intros [? ?]|done].
Qed.

Lemma counts_follow_tally_witness :
  ∃ σ1 σ,
    NewSubscriptionCounters demo = Ok (2%positive, σ1) ∧
    never_at_MaxInt Int64 2 σ1
      [CallDecrement ssid_1_42; CallIncrement ssid_5_7_9 "c/d";
       CallIncrement ssid_5_9_7 "c/d"; CallDecrement ssid_5_7_9; CallAll] ∧
    calls Int64 2
      [CallDecrement ssid_1_42; CallIncrement ssid_5_7_9 "c/d";
       CallIncrement ssid_5_9_7 "c/d"; CallDecrement ssid_5_7_9; CallAll] σ1
    = Ok (tt, σ) ∧
    count σ 2 11 = 1 ∧ count σ 2 43 = 0 ∧
    count σ 2 11
    = tally demo (λ _, 0)
        [CallDecrement ssid_1_42; CallIncrement ssid_5_7_9 "c/d";
         CallIncrement ssid_5_9_7 "c/d"; CallDecrement ssid_5_7_9; CallAll] 11.
Proof.
  do 2 eexists.
  assert (never_at_MaxInt Int64 2 (set_tables <[2%positive := ∅]> demo)
            [CallDecrement ssid_1_42; CallIncrement ssid_5_7_9 "c/d";
             CallIncrement ssid_5_9_7 "c/d"; CallDecrement ssid_5_7_9; CallAll])
    as Hnever.
  { apply (few_increments_never_at_MaxInt Int64 demo); [reflexivity|].
    vm_compute. discriminate. }
  split; [reflexivity|]. split; [exact Hnever|]. split; [reflexivity|].
  split; [reflexivity|]. split; [reflexivity|].
  exact (proj1 (counts_follow_tally Int64 demo 2%positive _
                  [CallDecrement ssid_1_42; CallIncrement ssid_5_7_9 "c/d";
                   CallIncrement ssid_5_9_7 "c/d"; CallDecrement ssid_5_7_9; CallAll]
                  _ eq_refl Hnever eq_refl 11)).
Defined.

(** ** One call and the buckets it leaves alone *)

(** X6: Increment followed by Decrement of the same SSID leaves every
    bucket of the registry as it was, whatever the count: a bucket at MaxInt
    wraps to MinInt and back, and a bucket created by the Increment is
    removed by the Decrement. *)
Theorem Increment_Decrement_round_trip w s ssid channel σ :
  registry_ok σ s →
  registry_inv (MaxInt w) σ s →
  is_Some (key_of σ ssid) →
  ∃ σ1 σ2,
    Increment w s ssid channel σ = Ok (tt, σ1) ∧
    Decrement w s ssid σ1 = Ok (tt, σ2) ∧
    ∀ k, bucket σ2 s k = bucket σ s k.
Proof.
  intros Hok Hinv Hvalid.
  pose proof (MaxInt_pos w) as Hmax. pose proof (MinInt_neg w) as Hmin.
  destruct (call_returns w s (CallIncrement ssid channel) σ Hok Hvalid) as (σ1 & H1).
  simpl in H1.
  destruct (Increment_buckets _ _ _ _ _ _ _ Hok H1)
    as (key & Hkey & Hb1 & Hother1 & Hok1 & Hw1).
  destruct (call_returns w s (CallDecrement ssid) σ1 Hok1) as (σ2 & H2).
  { simpl. by rewrite (key_of_words σ σ1). }
  simpl in H2. exists σ1, σ2. split_and!; [done..|].
  destruct (Decrement_buckets _ _ _ _ _ _ Hok1 H2)
    as (key' & Hkey' & Hb2 & Hother2 & _ & _).
  rewrite (key_of_words σ σ1) // Hkey in Hkey'. injection Hkey' as <-.
  intros k. destruct (decide (k = key)) as [->|Hne].
  - rewrite Hb2 Hb1. destruct (bucket σ s key) as [c|] eqn:Hb.
    + pose proof (bucket_registry_inv _ _ _ _ _ Hinv Hb).
      rewrite /with_count. cbn [subCounter.Counter subCounter.Ssid subCounter.Channel].
      replace (wrapInt w (subCounter.Counter c + 1) - 1)
        with (wrapInt w (subCounter.Counter c + 1) + -1) by lia.
      rewrite wrapInt_wrapInt_add.
      replace (subCounter.Counter c + 1 + -1) with (subCounter.Counter c) by lia.
      rewrite wrapInt_small; [lia|].
      rewrite decide_False; [lia|]. by destruct c.
    + cbn [subCounter.Counter]. rewrite wrapInt_small; [lia|].
      destruct (decide (1 - 1 ≤ 0)); [done|lia].
  - rewrite Hother2 // Hother1 //.
Qed.

Lemma Increment_Decrement_round_trip_witness :
  registry_ok demo_counted 1 ∧
  registry_inv (MaxInt Int64) demo_counted 1 ∧
  is_Some (key_of demo_counted ssid_1_42) ∧
  ∃ σ1 σ2,
    Increment Int64 1 ssid_1_42 "x/y" demo_counted = Ok (tt, σ1) ∧
    Decrement Int64 1 ssid_1_42 σ1 = Ok (tt, σ2) ∧
    ∀ k, bucket σ2 1 k = bucket demo_counted 1 k.
Proof.
  assert (registry_inv (MaxInt Int64) demo_counted 1) as Hinv.
  { exists {[ 43 := 1%positive ]}. split_and!; [done|..].
    - intros k p [<- <-]%lookup_singleton_Some.
      eexists. split; [reflexivity|]. split; vm_compute; discriminate.
    - by intros k k' p [<- _]%lookup_singleton_Some [<- _]%lookup_singleton_Some. }
  assert (is_Some (key_of demo_counted ssid_1_42)) as Hvalid.
  { eexists. vm_compute. reflexivity. }
  split; [exact demo_counted_ok|]. split; [exact Hinv|]. split; [exact Hvalid|].
  exact (Increment_Decrement_round_trip Int64 1 ssid_1_42 "x/y" demo_counted
           demo_counted_ok Hinv Hvalid).
Defined.

(** X7: a call changes at most the bucket under the hash of its SSID.
    After a call that returns, every bucket under another key is as it was,
    All changes no bucket at all, and a bucket that is there before and
    after the call records the same SSID and the same channel. *)
Theorem call_touches_one_bucket w s c σ u σ' :
  registry_ok σ s →
  call w s c σ = Ok (u, σ') →
  (∀ k, bucket σ' s k = bucket σ s k ∨
        match c with
        | CallIncrement ssid _ | CallDecrement ssid => key_of σ ssid = Some k
        | CallAll => False
        end) ∧
  (∀ k b b', bucket σ s k = Some b → bucket σ' s k = Some b' →
     subCounter.Ssid b' = subCounter.Ssid b ∧
     subCounter.Channel b' = subCounter.Channel b).
Proof.
  intros Hok Hc. destruct c as [ssid channel|ssid|]; simpl in Hc.
  - destruct (Increment_buckets _ _ _ _ _ _ _ Hok Hc)
      as (key & Hkey & Hb & Hother & _ & _).
    split.
    + intros k. destruct (decide (k = key)) as [->|Hne]; [by right|].
      left. by apply Hother.
    + intros k b b' Hk Hk'. destruct (decide (k = key)) as [->|Hne].
      * rewrite Hk in Hb. rewrite Hb in Hk'. by injection Hk' as <-.
      * rewrite Hother // Hk in Hk'. by injection Hk' as <-.
  - destruct (Decrement_buckets _ _ _ _ _ _ Hok Hc)
      as (key & Hkey & Hb & Hother & _ & _).
    split.
    + intros k. destruct (decide (k = key)) as [->|Hne]; [by right|].
      left. by apply Hother.
    + intros k b b' Hk Hk'. destruct (decide (k = key)) as [->|Hne].
      * rewrite Hk in Hb. rewrite Hb in Hk'.
        destruct (decide _); [done|]. by injection Hk' as <-.
      * rewrite Hother // Hk in Hk'. by injection Hk' as <-.
  - apply bind_inv in Hc as (a & σa & Ha & [= _ <-]).
    destruct (All_buckets _ _ _ _ Ha) as (Hb & _ & _).
    split.
    + intros k. by left.
    + intros k b b'. rewrite Hb. by intros -> [= ->].
Qed.

Lemma call_touches_one_bucket_witness :
  registry_ok demo_counted 1 ∧
  ∃ σ',
    call Int64 1 (CallIncrement ssid_5_7_9 "c/d") demo_counted = Ok (tt, σ') ∧
    bucket σ' 1 43 = bucket demo_counted 1 43.
Proof.
  split; [exact demo_counted_ok|].
  eexists. split; [reflexivity|].
  destruct (proj1 (call_touches_one_bucket Int64 1 (CallIncrement ssid_5_7_9 "c/d")
                     demo_counted tt _ demo_counted_ok eq_refl) 43) as [H|H].
  - exact H.
  - reflexivity.
Defined.

(** ** Decrement sees an SSID through its hash only *)

Lemma Decrement_outcome w s ssid σ x l :
  view (words σ) ssid = Some (x :: l) →
  Decrement w s ssid σ
  = match tables σ !! s with
    | None => Panic InvalidAddress
    | Some t =>
        match t !! foldl Z.lxor x l with
        | None => Ok (tt, σ)
        | Some p =>
            match meters σ !! p with
            | None => Panic InvalidAddress
            | Some c =>
                let n := wrapInt w (subCounter.Counter c - 1) in
                if decide (n ≤ 0)
                then Ok (tt, set_tables <[s := delete (foldl Z.lxor x l) t]>
                               (set_meters <[p := with_count c n]> σ))
                else Ok (tt, set_meters <[p := with_count c n]> σ)
            end
        end
    end.
Proof.
  intros Hv. destruct (tables σ !! s) as [t|] eqn:Ht.
  - destruct (t !! foldl Z.lxor x l) as [p|] eqn:Hp.
    + destruct (meters σ !! p) as [c|] eqn:Hc.
      * simpl. case_decide.
        -- by eapply Decrement_removed.
        -- eapply Decrement_retained; [done..|lia].
      * rewrite /Decrement.
        mstep ltac:(by apply GetHashCode_view).
        mload. rewrite Hp.
        by rewrite /mbind /M_bind /load_meter /lift_lookup Hc.
    + by eapply Decrement_absent.
  - rewrite /Decrement.
    mstep ltac:(by apply GetHashCode_view).
    by rewrite /mbind /M_bind /load_table /lift_lookup Ht.
Qed.

(** X8: Decrement sees its SSID through the combined hash only.  Two
    SSIDs with the same hash are interchangeable as its argument: the call
    has the same outcome, store and all, so a Decrement of one SSID counts
    down, and may remove, the bucket an Increment of another one created. *)
Theorem Decrement_depends_on_hash_only w s ssid1 ssid2 σ key :
  key_of σ ssid1 = Some key →
  key_of σ ssid2 = Some key →
  Decrement w s ssid1 σ = Decrement w s ssid2 σ.
Proof.
  intros (x1 & l1 & Hv1 & ->)%key_of_inv (x2 & l2 & Hv2 & Heq)%key_of_inv.
  rewrite (Decrement_outcome _ _ _ _ _ _ Hv1) (Decrement_outcome _ _ _ _ _ _ Hv2).
  by rewrite Heq.
Qed.

Lemma Decrement_depends_on_hash_only_witness :
  key_of demo ssid_5_7_9 = Some 11 ∧
  key_of demo ssid_5_9_7 = Some 11 ∧
  Increment Int64 1 ssid_5_7_9 "c/d" demo
  = Ok (tt, filed demo 1 ∅ 11 1 (subCounter.mk ssid_5_7_9 "c/d" 1)) ∧
  value_of ((Decrement Int64 1 ssid_5_9_7;; observe (λ σ', bucket σ' 1 11))
              (filed demo 1 ∅ 11 1 (subCounter.mk ssid_5_7_9 "c/d" 1)))
  = Some None ∧
  Decrement Int64 1 ssid_5_7_9 (filed demo 1 ∅ 11 1 (subCounter.mk ssid_5_7_9 "c/d" 1))
  = Decrement Int64 1 ssid_5_9_7 (filed demo 1 ∅ 11 1 (subCounter.mk ssid_5_7_9 "c/d" 1)).
Proof.
  split; [reflexivity|]. split; [reflexivity|].
  split; [vm_compute; reflexivity|]. split; [vm_compute; reflexivity|].
  exact (Decrement_depends_on_hash_only Int64 1 ssid_5_7_9 ssid_5_9_7
           (filed demo 1 ∅ 11 1 (subCounter.mk ssid_5_7_9 "c/d" 1)) 11
           eq_refl eq_refl).
Defined.

(** ** What All returns *)

(** X9: on a well-formed registry All returns, and the snapshot it returns
    holds one element for each bucket: its length is the size of the map, an
    SSID and channel are in it exactly when some bucket records them, and the
    call changes no bucket of any registry. *)
Theorem All_lists_every_bucket σ s t :
  tables σ !! s = Some t →
  registry_ok σ s →
  ∃ a σ' X,
    All s σ = Ok (a, σ') ∧ snapshot σ' a = Some X ∧
    len a = size t ∧ length X = size t ∧
    (∀ v, v ∈ X ↔ ∃ k c, bucket σ s k = Some c ∧ entry σ c = Some v) ∧
    (∀ s0 k, bucket σ' s0 k = bucket σ s0 k).
Proof.
  intros Ht (t' & Ht' & Hwf & Hinj). assert (t' = t) as -> by congruence.
  destruct (All_ok_full σ s t Ht Hwf)
    as (a & σ' & es & X & Ha & _ & _ & _ & Hes & Hsnap & Hent & _ & Hcopied).
  exists a, σ', X. split_and!; [done..| | | |].
  - rewrite -(view_length _ _ _ Hes) (Forall2_length _ _ _ Hcopied).
    apply length_map_to_list.
  - rewrite -(length_mapM _ _ _ Hent). apply length_map_to_list.
  - intros v. split.
    + intros [i Hi]%list_elem_of_lookup.
      apply mapM_Some in Hent.
      destruct (Forall2_lookup_r _ _ _ _ _ Hent Hi) as ([k p] & Hkp & Hv).
      apply list_elem_of_lookup_2, elem_of_map_to_list in Hkp.
      apply bind_Some in Hv as (c & Hc & Hv). simpl in Hc.
      exists k, c. split; [|done]. by rewrite /bucket Ht /= Hkp.
    + intros (k & c & Hb & Hv). rewrite /bucket Ht /= in Hb.
      destruct (t !! k) as [p|] eqn:Hp; [|done]. simpl in Hb.
      destruct (entries_elem_of _ _ _ _ _ _ Hent Hp Hb) as (v' & Hv' & Hin).
      by replace v with v' by congruence.
  - by destruct (All_buckets _ _ _ _ Ha) as (? & _).
Qed.

Lemma All_lists_every_bucket_witness :
  tables demo_counted !! 1%positive = Some {[ 43 := 1%positive ]} ∧
  registry_ok demo_counted 1 ∧
  ∃ a σ' X,
    All 1 demo_counted = Ok (a, σ') ∧ snapshot σ' a = Some X ∧
    len a = size ({[ 43 := 1%positive ]} : gmap Z positive) ∧
    length X = size ({[ 43 := 1%positive ]} : gmap Z positive).
Proof.
  split; [reflexivity|]. split; [exact demo_counted_ok|].
  destruct (All_lists_every_bucket demo_counted 1 {[ 43 := 1%positive ]}
              eq_refl demo_counted_ok) as (a & σ' & X & Ha & HX & Hlen & HlenX & _).
  exists a, σ', X. split_and!; [exact Ha|exact HX|exact Hlen|exact HlenX].
Defined.

(** ** New SSIDs and their hashes *)

Lemma xor_all_app l l' : xor_all (l ++ l') = Z.lxor (xor_all l) (xor_all l').
Proof.
  rewrite /xor_all. induction l as [|a l IH]; simpl; [done|].
  by rewrite IH Z.lxor_assoc.
Qed.

Lemma xor_all_twice l : xor_all (l ++ l) = 0.
Proof. by rewrite xor_all_app Z.lxor_nilpotent. Qed.

Lemma NewSsid_new_view σ contract ch q :
  view (words σ) (security.Query ch) = Some q →
  ∃ ssid σ',
    NewSsid contract (Some ch) σ = Ok (ssid, σ') ∧
    σ' = set_words <[fresh (dom (words σ)) := wrap32 contract :: q]> σ ∧
    view (words σ') ssid = Some (wrap32 contract :: q).
Proof.
  intros Hq. do 2 eexists. split; [by apply NewSsid_view|]. split; [done|].
  apply (view_whole _ _ (wrap32 contract :: q)). by rewrite /= lookup_insert_eq.
Qed.

Lemma registry_ok_new_words σ a s :
  registry_ok σ s → registry_ok (set_words <[fresh (dom (words σ)) := a]> σ) s.
Proof.
  intros (t & Ht & Hwf & Hinj). exists t. split_and!; [done| |done].
  intros k p Hp. destruct (Hwf _ _ Hp) as (c & Hc & Hv).
  exists c. split; [done|]. simpl. by rewrite view_insert_fresh.
Qed.

(** X10: the hash of a new SSID.  For a channel whose query is a slice of
    the store with the elements [q], GetHashCode of NewSsid(contract, c) is
    the contract XORed with all elements of [q]; with an empty query it is
    the contract itself, which is also what Contract returns. *)
Theorem GetHashCode_NewSsid σ contract ch q :
  view (words σ) (security.Query ch) = Some q →
  ∃ ssid σ',
    NewSsid contract (Some ch) σ = Ok (ssid, σ') ∧
    GetHashCode ssid σ' = Ok (Z.lxor (wrap32 contract) (xor_all q), σ') ∧
    (q = [] → GetHashCode ssid σ' = Contract ssid σ').
Proof.
  intros Hq. destruct (NewSsid_new_view σ contract ch q Hq) as (ssid & σ' & Hnew & _ & Hv).
  exists ssid, σ'. split_and!; [done|..].
  - by rewrite (GetHashCode_view _ _ _ _ Hv) foldl_lxor.
  - intros ->. rewrite (GetHashCode_view _ _ _ _ Hv) (Contract_view _ _ _ _ Hv) /=.
    rewrite /wrap32 Z.mod_mod //.
Qed.

Lemma GetHashCode_NewSsid_witness :
  view (words demo) (Slice 2 1 2 2) = Some [7; 9] ∧
  ∃ ssid σ',
    NewSsid 5 (Some (security.mkChannel (Slice 2 1 2 2))) demo = Ok (ssid, σ') ∧
    GetHashCode ssid σ' = Ok (11, σ').
Proof.
  split; [reflexivity|].
  destruct (GetHashCode_NewSsid demo 5 (security.mkChannel (Slice 2 1 2 2)) [7; 9] eq_refl)
    as (ssid & σ' & Hnew & Hh & _).
  exists ssid, σ'. split; [exact Hnew|exact Hh].
Defined.

(** X11: NewSsid followed by Increment.  On a well-formed registry, an
    Increment of the SSID that NewSsid returns for a contract and a query
    [q] returns and counts under the key contract XOR all of [q]: it adds 1
    to the bucket there, or files a new bucket with the count 1 that records
    the new SSID and the channel; every other bucket is as it was before the
    two calls. *)
Theorem NewSsid_then_Increment w s σ contract ch q channel :
  registry_ok σ s →
  view (words σ) (security.Query ch) = Some q →
  ∃ ssid σ1 σ2,
    NewSsid contract (Some ch) σ = Ok (ssid, σ1) ∧
    Increment w s ssid channel σ1 = Ok (tt, σ2) ∧
    bucket σ2 s (Z.lxor (wrap32 contract) (xor_all q))
    = Some (match bucket σ s (Z.lxor (wrap32 contract) (xor_all q)) with
            | Some c => with_count c (wrapInt w (subCounter.Counter c + 1))
            | None => subCounter.mk ssid channel 1
            end) ∧
    (∀ k, k ≠ Z.lxor (wrap32 contract) (xor_all q) → bucket σ2 s k = bucket σ s k) ∧
    view (words σ2) ssid = Some (wrap32 contract :: q).
Proof.
  intros Hok Hq.
  destruct (NewSsid_new_view σ contract ch q Hq) as (ssid & σ1 & Hnew & Hσ1 & Hv).
  assert (registry_ok σ1 s) as Hok1 by (subst σ1; by apply registry_ok_new_words).
  assert (∀ k, bucket σ1 s k = bucket σ s k) as Hb1 by by subst σ1.
  pose proof (key_of_view _ _ _ _ Hv) as Hkey. rewrite foldl_lxor in Hkey.
  destruct (call_returns w s (CallIncrement ssid channel) σ1 Hok1) as (σ2 & H2).
  { simpl. eauto. }
  simpl in H2.
  destruct (Increment_buckets _ _ _ _ _ _ _ Hok1 H2)
    as (key & Hkey' & Hb & Hother & _ & Hw).
  assert (key = Z.lxor (wrap32 contract) (xor_all q)) as -> by congruence.
  exists ssid, σ1, σ2. split_and!; [done..| | |].
  - by rewrite Hb Hb1.
  - intros k Hk. by rewrite Hother // Hb1.
  - by rewrite Hw.
Qed.

Lemma NewSsid_then_Increment_witness :
  registry_ok demo_counted 1 ∧
  view (words demo_counted) (Slice 1 1 1 1) = Some [42] ∧
  ∃ ssid σ1 σ2,
    NewSsid 1 (Some (security.mkChannel (Slice 1 1 1 1))) demo_counted = Ok (ssid, σ1) ∧
    Increment Int64 1 ssid "x/y" σ1 = Ok (tt, σ2) ∧
    bucket σ2 1 43 = Some (subCounter.mk ssid_1_42 "a/b" 2).
Proof.
  split; [exact demo_counted_ok|]. split; [reflexivity|].
  destruct (NewSsid_then_Increment Int64 1 demo_counted 1
              (security.mkChannel (Slice 1 1 1 1)) [42] "x/y" demo_counted_ok eq_refl)
    as (ssid & σ1 & σ2 & Hnew & Hinc & Hb & _).
  exists ssid, σ1, σ2. split; [exact Hnew|]. split; [exact Hinc|exact Hb].
Defined.

(** X12: which SSIDs collide.  GetHashCode does not tell the contract from
    the tokens, nor a token that occurs twice from none: if the elements of
    one SSID are those of another in any order, element 0 included, with any
    sequence of further elements added twice, both have the same hash. *)
Theorem GetHashCode_collisions σ s1 s2 x1 l1 v2 pad :
  view (words σ) s1 = Some (x1 :: l1) →
  view (words σ) s2 = Some v2 →
  v2 ≡ₚ (x1 :: l1) ++ pad ++ pad →
  ∃ h, GetHashCode s1 σ = Ok (h, σ) ∧ GetHashCode s2 σ = Ok (h, σ).
Proof.
  intros Hv1 Hv2 Hperm.
  destruct v2 as [|x2 l2].
  { by apply Permutation_nil_cons in Hperm. }
  exists (foldl Z.lxor x1 l1). split; [by apply GetHashCode_view|].
  rewrite (GetHashCode_view _ _ _ _ Hv2). do 2 f_equal.
  rewrite !foldl_lxor.
  change (xor_all (x2 :: l2) = xor_all (x1 :: l1)).
  rewrite (xor_all_Permutation _ _ Hperm) xor_all_app xor_all_twice.
  by rewrite Z.lxor_0_r.
Qed.

Lemma GetHashCode_collisions_witness :
  view (words demo) (Slice 2 1 2 2) = Some [7; 9] ∧
  view (words demo) (Slice 3 1 2 2) = Some [9; 7] ∧
  [9; 7] ≡ₚ [7; 9] ++ [] ++ [] ∧
  (∃ h, GetHashCode (Slice 2 1 2 2) demo = Ok (h, demo) ∧
        GetHashCode (Slice 3 1 2 2) demo = Ok (h, demo)).
Proof.
  assert ([9; 7] ≡ₚ [7; 9] ++ [] ++ []) as Hperm by apply perm_swap.
  split; [reflexivity|]. split; [reflexivity|]. split; [exact Hperm|].
  exact (GetHashCode_collisions demo (Slice 2 1 2 2) (Slice 3 1 2 2) 7 [9] [9; 7] []
           eq_refl eq_refl Hperm).
Defined.

(** ** The order of a subscriber set *)

Lemma AddUnique_member (s : list positive) value :
  value ∈ s → AddUnique s value = s.
Proof. intros Hin%Contains_elem_of. by rewrite /AddUnique Hin. Qed.

Lemma AddUnique_fresh (s : list positive) value :
  value ∉ s → AddUnique s value = s ++ [value].
Proof.
  intros Hin. rewrite /AddUnique.
  destruct (Contains s value) eqn:Hc; [|done].
  by apply Contains_elem_of in Hc.
Qed.

(** X13: a set built by AddUnique lists its members in the order of their
    first additions: folding AddUnique over a sequence of handles, from the
    empty set, gives the sequence with every repeated occurrence of a handle
    dropped. *)
Theorem AddUnique_keeps_first_additions (adds : list positive) :
  foldl AddUnique [] adds = reverse (remove_dups (reverse adds)).
Proof.
  induction adds as [|v adds IH] using rev_ind; [done|].
  rewrite foldl_app reverse_app /= IH.
  case_decide as Hin.
  - apply AddUnique_member. by rewrite elem_of_reverse elem_of_remove_dups.
  - rewrite reverse_cons. apply AddUnique_fresh.
    by rewrite elem_of_reverse elem_of_remove_dups.
Qed.

(** X14: AddUnique never moves or drops a member.  The set before the call
    is a prefix of the set after it, which is at most one longer; adding a
    handle a second time changes nothing; a set without duplicates stays
    without duplicates; and adding two handles in either order gives the
    same members. *)
Theorem AddUnique_keeps_members_in_place (s : list positive) (a b : positive) :
  s `prefix_of` AddUnique s a ∧
  (length (AddUnique s a) ≤ S (length s))%nat ∧
  AddUnique (AddUnique s a) a = AddUnique s a ∧
  (NoDup s → NoDup (AddUnique s a)) ∧
  AddUnique (AddUnique s a) b ≡ₚ AddUnique (AddUnique s b) a.
Proof.
  assert (∀ v, v ∈ AddUnique s v) as Hmem.
  { intros v. destruct (decide (v ∈ s)) as [Hv|Hv].
    - by rewrite AddUnique_member.
    - rewrite AddUnique_fresh //. set_solver. }
  split_and!.
  - destruct (decide (a ∈ s)) as [Ha|Ha].
    + by rewrite AddUnique_member.
    + rewrite AddUnique_fresh //. by apply prefix_app_r.
  - destruct (decide (a ∈ s)) as [Ha|Ha].
    + rewrite AddUnique_member //. lia.
    + rewrite AddUnique_fresh // length_app /=. lia.
  - by apply AddUnique_member.
  - intros Hnd. destruct (decide (a ∈ s)) as [Ha|Ha].
    + by rewrite AddUnique_member.
    + rewrite AddUnique_fresh //. apply NoDup_app. split_and!; [done| |].
      * intros x Hx ->%list_elem_of_singleton. done.
      * apply NoDup_singleton.
  - destruct (decide (a = b)) as [->|Hne]; [done|].
    destruct (decide (a ∈ s)) as [Ha|Ha], (decide (b ∈ s)) as [Hb|Hb].
    + by rewrite !(AddUnique_member s).
    + rewrite (AddUnique_member s a) // (AddUnique_fresh s b) //.
      rewrite AddUnique_member //. set_solver.
    + rewrite (AddUnique_member s b) // (AddUnique_fresh s a) //.
      rewrite (AddUnique_member (s ++ [a]) b) //. set_solver.
    + rewrite (AddUnique_fresh s a) // (AddUnique_fresh s b) //.
      rewrite !AddUnique_fresh;
        [by intros [?|?%list_elem_of_singleton]%elem_of_app..|].
      rewrite -!assoc. apply Permutation_app_head, perm_swap.
Qed.

(** ** Two registries *)

Lemma registry_ok_frame σ σ' s0 t0 :
  tables σ !! s0 = Some t0 →
  tables σ' !! s0 = Some t0 →
  words σ' = words σ →
  (∀ k p, t0 !! k = Some p → meters σ' !! p = meters σ !! p) →
  registry_ok σ s0 →
  registry_ok σ' s0 ∧ ∀ k, bucket σ' s0 k = bucket σ s0 k.
Proof.
  intros Ht Ht' Hw Hm (t & Ht1 & Hwf & Hinj). assert (t = t0) as -> by congruence.
  split.
  - exists t0. split_and!; [done| |done].
    intros k p Hp. destruct (Hwf _ _ Hp) as (c & Hc & Hv).
    exists c. by rewrite (Hm _ _ Hp) Hw.
  - intros k. rewrite /bucket Ht Ht' /=.
    destruct (t0 !! k) as [p|] eqn:Hp; [|done]. simpl. by eapply Hm.
Qed.

Lemma registry_ok_allocated σ s0 t0 k p :
  registry_ok σ s0 → tables σ !! s0 = Some t0 → t0 !! k = Some p →
  p ≠ fresh (dom (meters σ)).
Proof.
  intros (t & Ht & Hwf & _) Ht0 Hp ->. assert (t = t0) as -> by congruence.
  destruct (Hwf _ _ Hp) as (c & Hc & _).
  apply (is_fresh (dom (meters σ))). apply elem_of_dom. by exists c.
Qed.

Lemma call_apart w s s0 c σ u σ' :
  registry_ok σ s0 → apart σ s s0 →
  call w s c σ = Ok (u, σ') →
  (∀ k, bucket σ' s0 k = bucket σ s0 k) ∧ registry_ok σ' s0 ∧ apart σ' s s0.
Proof.
  intros Hok0 [Hne Hapart] Hc.
  pose proof Hok0 as (t0 & Ht0 & _).
  destruct c as [ssid channel|ssid|]; simpl in Hc.
  - apply Increment_inv in Hc as (x & l & t & Hv & Ht & H).
    destruct (t !! foldl Z.lxor x l) as [p|] eqn:Hp.
    + destruct H as (c & Hc & ->).
      destruct (registry_ok_frame σ
                  (set_meters <[p := with_count c (wrapInt w (subCounter.Counter c + 1))]> σ)
                  s0 t0) as [Hok' Hb']; [done..| |done|].
      { intros k p0 Hp0. rewrite /= lookup_insert_ne //.
        intros ->. by eapply Hapart. }
      split_and!; [done..|]. split; [done|]. by simpl.
    + subst σ'.
      destruct (registry_ok_frame σ
                  (filed σ s t (foldl Z.lxor x l) (fresh (dom (meters σ)))
                     (subCounter.mk ssid channel 1)) s0 t0) as [Hok' Hb'];
        [done|by rewrite /= lookup_insert_ne|done| |done|].
      { intros k p0 Hp0. rewrite /= lookup_insert_ne //.
        apply not_eq_sym. by eapply registry_ok_allocated. }
      split_and!; [done..|]. split; [done|].
      intros t1 t2 k k0 p. rewrite /= lookup_insert_eq lookup_insert_ne //.
      intros [= <-] Ht2 [[<- <-]|[_ Hp1]]%lookup_insert_Some Hp2.
      * by eapply (registry_ok_allocated σ s0 t2 k0).
      * by eapply Hapart.
  - apply Decrement_inv in Hc as (x & l & t & Hv & Ht & H).
    destruct (t !! foldl Z.lxor x l) as [p|] eqn:Hp.
    + destruct H as (c & Hc & ->).
      set (σm := set_meters
                   <[p := with_count c (wrapInt w (subCounter.Counter c - 1))]> σ).
      assert (∀ k p0, t0 !! k = Some p0 → meters σm !! p0 = meters σ !! p0) as Hm.
      { intros k p0 Hp0. rewrite /= lookup_insert_ne //.
        intros ->. by eapply Hapart. }
      case_decide.
      * destruct (registry_ok_frame σ
                    (set_tables <[s := delete (foldl Z.lxor x l) t]> σm) s0 t0)
          as [Hok' Hb']; [done|by rewrite /= lookup_insert_ne|done..|].
        split_and!; [done..|]. split; [done|].
        intros t1 t2 k k0 p1. rewrite /= lookup_insert_eq lookup_insert_ne //.
        intros [= <-] Ht2 [_ Hp1]%lookup_delete_Some Hp2. by eapply Hapart.
      * destruct (registry_ok_frame σ σm s0 t0) as [Hok' Hb']; [done..|].
        split_and!; [done..|]. split; [done|]. by simpl.
    + by subst σ'.
  - apply bind_inv in Hc as (a & σa & Ha & [= _ <-]).
    destruct (All_buckets _ _ _ _ Ha) as (Hb & Hok & _).
    apply All_frame in Ha as (_ & Hm & Ht).
    split_and!; [done|by apply Hok|]. split; [done|]. by rewrite Ht.
Qed.

(** X15: two registries do not interfere.  If the maps of two well-formed
    registries share no counter object, then after any sequence of calls on
    one of them that return, every bucket of the other is as it was, and
    the two still share no counter object. *)
Theorem calls_leave_other_registries w s s0 cs σ σ' :
  registry_ok σ s0 →
  apart σ s s0 →
  calls w s cs σ = Ok (tt, σ') →
  (∀ k, bucket σ' s0 k = bucket σ s0 k) ∧ registry_ok σ' s0 ∧ apart σ' s s0.
Proof.
  revert σ. induction cs as [|c cs IH]; intros σ Hok0 Hapart; simpl.
  - by intros [= <-].
  - intros (u & σ1 & Hc & Hcs)%bind_inv.
    destruct (call_apart _ _ _ _ _ _ _ Hok0 Hapart Hc) as (Hb1 & Hok1 & Hapart1).
    destruct (IH σ1 Hok1 Hapart1 Hcs) as (Hb & Hok' & Hapart').
    split_and!; [|done..]. intros k. by rewrite Hb Hb1.
Qed.

Lemma demo_two_ok : registry_ok demo_two 1 ∧ apart demo_two 2 1.
Proof.
  split.
  - apply (registry_ok_frame demo_counted demo_two 1 {[ 43 := 1%positive ]});
      [done..|exact demo_counted_ok].
  - split; [done|]. intros t t' k k0 p. rewrite /= lookup_insert_eq.
    by intros [= <-] _ ?%lookup_empty_Some.
Qed.

Lemma calls_leave_other_registries_witness :
  registry_ok demo_two 1 ∧ apart demo_two 2 1 ∧
  ∃ σ',
    calls Int64 2 [CallIncrement ssid_1_42 "x/y"; CallIncrement ssid_1_42 "x/y";
                   CallAll; CallDecrement ssid_1_42] demo_two = Ok (tt, σ') ∧
    bucket σ' 2 43 = Some (subCounter.mk ssid_1_42 "x/y" 1) ∧
    bucket σ' 1 43 = bucket demo_two 1 43.
Proof.
  split; [exact (proj1 demo_two_ok)|]. split; [exact (proj2 demo_two_ok)|].
  eexists. split; [reflexivity|]. split; [reflexivity|].
  exact (proj1 (calls_leave_other_registries Int64 2 1
                  [CallIncrement ssid_1_42 "x/y"; CallIncrement ssid_1_42 "x/y";
                   CallAll; CallDecrement ssid_1_42] demo_two _
                  (proj1 demo_two_ok) (proj2 demo_two_ok) eq_refl) 43).
Defined.

(** X16: NewSubscriptionCounters returns a registry that was not there
    before and whose map is empty, so that it has no bucket; it shares no
    counter object with a registry that is already there, in either
    direction, and making it changes no bucket of that registry. *)
Theorem new_registry_is_apart σ0 s0 s σ1 :
  registry_ok σ0 s0 →
  NewSubscriptionCounters σ0 = Ok (s, σ1) →
  tables σ0 !! s = None ∧
  tables σ1 !! s = Some ∅ ∧
  (∀ k, bucket σ1 s k = None) ∧
  apart σ1 s s0 ∧ apart σ1 s0 s ∧
  registry_ok σ1 s0 ∧ registry_ok σ1 s ∧
  ∀ k, bucket σ1 s0 k = bucket σ0 s0 k.
Proof.
  intros Hok0 Hnew. pose proof Hok0 as (t0 & Ht0 & _).
  destruct (NewSubscriptionCounters_ok _ _ _ Hnew) as (Hok1 & _ & Hempty).
  injection Hnew as <- <-.
  assert (fresh (dom (tables σ0)) ∉ dom (tables σ0)) as Hfresh by apply is_fresh.
  assert (fresh (dom (tables σ0)) ≠ s0) as Hne.
  { intros Heq. apply Hfresh. rewrite Heq. apply elem_of_dom. eauto. }
  destruct (registry_ok_frame σ0 (set_tables <[fresh (dom (tables σ0)) := ∅]> σ0) s0 t0)
    as [Hok' Hb']; [done|by rewrite /= lookup_insert_ne|done..|].
  split_and!; [| | | | |done..].
  - by apply not_elem_of_dom.
  - by rewrite /= lookup_insert_eq.
  - done.
  - split; [done|]. intros t t' k k0 p. rewrite /= lookup_insert_eq.
    by intros [= <-] _ ?%lookup_empty_Some.
  - split; [done|]. intros t t' k k0 p. rewrite /= lookup_insert_eq.
    by intros _ [= <-] _ ?%lookup_empty_Some.
Qed.

Lemma new_registry_is_apart_witness :
  registry_ok demo_counted 1 ∧
  NewSubscriptionCounters demo_counted = Ok (2%positive, demo_two) ∧
  tables demo_counted !! 2%positive = None ∧
  tables demo_two !! 2%positive = Some ∅ ∧
  apart demo_two 2 1 ∧ apart demo_two 1 2 ∧
  bucket demo_two 1 43 = bucket demo_counted 1 43.
Proof.
  split; [exact demo_counted_ok|]. split; [reflexivity|].
  destruct (new_registry_is_apart demo_counted 1 2 demo_two demo_counted_ok eq_refl)
    as (H0 & H0' & _ & H1 & H2 & _ & _ & Hb).
  split; [exact H0|]. split; [exact H0'|].
  split; [exact H1|]. split; [exact H2|exact (Hb 43)].
Defined.

(** ** getOrCreate *)

(** X17: getOrCreate gets or creates.  When it returns, the object it
    returns is the one filed under the hash of the SSID; a bucket that was
    there is returned with the store unchanged, a missing one is created
    with the count 0; and a second call, with any SSID of the same hash and
    any channel, returns the same object and changes nothing. *)
Theorem getOrCreate_twice s ssid1 channel1 ssid2 channel2 σ p σ1 key :
  key_of σ ssid1 = Some key →
  key_of σ ssid2 = Some key →
  getOrCreate s ssid1 channel1 σ = Ok (p, σ1) →
  (tables σ1 !! s ≫= (.!! key)) = Some p ∧
  (is_Some (tables σ !! s ≫= (.!! key)) → σ1 = σ) ∧
  (tables σ !! s ≫= (.!! key) = None →
   bucket σ1 s key = Some (subCounter.mk ssid1 channel1 0)) ∧
  getOrCreate s ssid2 channel2 σ1 = Ok (p, σ1).
Proof.
  intros (x1 & l1 & Hv1 & ->)%key_of_inv (x2 & l2 & Hv2 & Heq)%key_of_inv Hg.
  assert (∃ t, tables σ !! s = Some t) as [t Ht].
  { rewrite /getOrCreate in Hg.
    rewrite (bind_Ok _ _ _ _ _ (GetHashCode_view _ _ _ _ Hv1)) in Hg.
    apply bind_inv in Hg as (t & σa & [Ht _]%load_table_inv & _). eauto. }
  destruct (t !! foldl Z.lxor x1 l1) as [p0|] eqn:Hp.
  - rewrite (getOrCreate_present σ s t ssid1 x1 l1 Hv1 Ht channel1 p0 Hp) in Hg.
    injection Hg as <- <-. split_and!.
    + by rewrite Ht /= Hp.
    + done.
    + by rewrite Ht /= Hp.
    + apply (getOrCreate_present σ s t ssid2 x2 l2 Hv2 Ht). by rewrite -Heq.
  - rewrite (getOrCreate_absent σ s t ssid1 x1 l1 Hv1 Ht channel1 Hp) in Hg.
    injection Hg as <- <-. split_and!.
    + by rewrite /= lookup_insert_eq /= lookup_insert_eq.
    + rewrite Ht /= Hp /=. by intros [? ?].
    + intros _.
      by rewrite /bucket /= lookup_insert_eq /= lookup_insert_eq /= lookup_insert_eq.
    + eapply (getOrCreate_present _ s _ ssid2 x2 l2); [done| |].
      * by rewrite /= lookup_insert_eq.
      * by rewrite -Heq lookup_insert_eq.
Qed.

Lemma getOrCreate_twice_witness :
  key_of demo ssid_5_7_9 = Some 11 ∧
  key_of demo ssid_5_9_7 = Some 11 ∧
  getOrCreate 1 ssid_5_7_9 "c/d" demo
  = Ok (1%positive, filed demo 1 ∅ 11 1 (subCounter.mk ssid_5_7_9 "c/d" 0)) ∧
  getOrCreate 1 ssid_5_9_7 "e/f" (filed demo 1 ∅ 11 1 (subCounter.mk ssid_5_7_9 "c/d" 0))
  = Ok (1%positive, filed demo 1 ∅ 11 1 (subCounter.mk ssid_5_7_9 "c/d" 0)).
Proof.
  assert (getOrCreate 1 ssid_5_7_9 "c/d" demo
          = Ok (1%positive, filed demo 1 ∅ 11 1 (subCounter.mk ssid_5_7_9 "c/d" 0)))
    as Hg by reflexivity.
  split; [reflexivity|]. split; [reflexivity|]. split; [exact Hg|].
  exact (proj2 (proj2 (proj2
           (getOrCreate_twice 1 ssid_5_7_9 "c/d" ssid_5_9_7 "e/f" demo 1 _ 11
              eq_refl eq_refl Hg)))).
Defined.

(** ** What holds after a call whatever the counts were *)

(** X18: on a well-formed registry, after an Increment that returns there
    is a bucket under the hash of its SSID, and after a Decrement that
    returns the bucket under the hash of its SSID is either gone or has a
    count of at least 1; both hold whatever the count was before, also where
    it wraps around. *)
Theorem bucket_after_call w s ssid channel σ u σ' key :
  registry_ok σ s →
  key_of σ ssid = Some key →
  (Increment w s ssid channel σ = Ok (u, σ') → is_Some (bucket σ' s key)) ∧
  (Decrement w s ssid σ = Ok (u, σ') →
   ∀ c, bucket σ' s key = Some c → 1 ≤ subCounter.Counter c).
Proof.
  intros Hok Hkey. split.
  - intros Hc. destruct (Increment_buckets _ _ _ _ _ _ _ Hok Hc)
      as (key' & Hkey' & Hb & _).
    assert (key' = key) as -> by congruence. rewrite Hb. eauto.
  - intros Hc c. destruct (Decrement_buckets _ _ _ _ _ _ Hok Hc)
      as (key' & Hkey' & Hb & _).
    assert (key' = key) as -> by congruence. rewrite Hb.
    destruct (bucket σ s key) as [c0|]; [|done].
    case_decide; [done|]. intros [= <-]. simpl. lia.
Qed.

Lemma bucket_after_call_witness :
  registry_ok demo_counted 1 ∧
  key_of demo_counted ssid_1_42 = Some 43 ∧
  Increment Int64 1 ssid_1_42 "x/y" demo_counted
  = Ok (tt, filed demo 1 ∅ 43 1 (subCounter.mk ssid_1_42 "a/b" 2)) ∧
  is_Some (bucket (filed demo 1 ∅ 43 1 (subCounter.mk ssid_1_42 "a/b" 2)) 1 43).
Proof.
  assert (Increment Int64 1 ssid_1_42 "x/y" demo_counted
          = Ok (tt, filed demo 1 ∅ 43 1 (subCounter.mk ssid_1_42 "a/b" 2)))
    as Hi by (vm_compute; reflexivity).
  split; [exact demo_counted_ok|]. split; [reflexivity|]. split; [exact Hi|].
  exact (proj1 (bucket_after_call Int64 1 ssid_1_42 "x/y" demo_counted tt _ 43
                  demo_counted_ok eq_refl) Hi).
Defined.
